(** * Element.h: the element lifecycle engine and its pin collections

    A shallow embedding of [src/Element.h] (class template [PinCollection],
    enum [ExecutionState], class [Element]) and the properties of the
    element specification that are stated over it.

    Conventions.
    - An [int] is a [Z] in [[INT_MIN, INT_MAX]]; a [size_t] is a [Z] in
      [[0, 2^64)].  Conversions between the two are written out.
    - A member function that reads or writes the object is an action of the
      monad [M]: it maps the object before the call to an [outcome], the
      object after the call and the list of effects the call had on its
      collaborators, oldest first.  An exception keeps the object as it was
      at the [throw].
    - The worker thread is a program counter over the lines of
      [Element::InternalWorkThread]; [worker_step] runs one statement. *)

From Stdlib Require Import ZArith List String Bool Lia.
Import ListNotations.

Local Open Scope Z_scope.

Set Implicit Arguments.

(** ** Exceptions and outcomes *)

(** The three exception classes [Element.h] throws. [InvalidOperationException]
    is thrown both with a message (line 263) and without one (line 290). *)
Inductive exception : Type :=
| ArgumentOutOfRangeException
| InvalidOperationException (message : string)
| Exception (message : string).

(** What a call does from the caller's side: it returns a value, it throws,
    it never returns because it waits for something no thread will provide,
    or it runs into behaviour the language leaves undefined. *)
Inductive outcome (A : Type) : Type :=
| Returns (a : A)
| Throws (e : exception)
| Blocks
| Undefined.

Arguments Throws {A} e.
Arguments Blocks {A}.
Arguments Undefined {A}.

Definition is_out_of_range {A} (o : outcome A) : bool :=
  match o with
  | Throws ArgumentOutOfRangeException => true
  | _ => false
  end.

Definition is_invalid_operation {A} (o : outcome A) : bool :=
  match o with
  | Throws (InvalidOperationException _) => true
  | _ => false
  end.

(** ** Machine integers *)

Definition INT_MAX : Z := 2 ^ 31 - 1.
Definition INT_MIN : Z := - 2 ^ 31.

Definition is_int (z : Z) : Prop := INT_MIN <= z <= INT_MAX.

(** [int] to [size_t], as the usual arithmetic conversions do in
    [index > pins.size()] and as the argument of [operator[]] is converted.
    [size_t] is taken 64 bits wide; on a non-negative [int] the conversion is
    the identity at any width. *)
Definition size_t_of_int (i : Z) : Z := i mod 2 ^ 64.

(** [size_t] to [int], as [return pins.size();] does in a function returning
    [int]. *)
Definition int_of_size_t (n : Z) : Z := (n + 2 ^ 31) mod 2 ^ 32 - 2 ^ 31.

(** ** PinCollection<T> *)

Module PinCollection.
Section WithPin.

Variable T : Type.

(** [std::vector<T> pins;] *)
Record t : Type := Make { pins : list T }.

(** [PinCollection() {}] *)
Definition new : t := Make [].

(** [void Add(T value) { pins.push_back(value); }] *)
Definition Add (value : T) (c : t) : t := Make (pins c ++ [value]).

(** [void Clear() { pins.clear(); }] *)
Definition Clear (c : t) : t := Make [].

(** [pins.size()] *)
Definition size (c : t) : Z := Z.of_nat (List.length (pins c)).

(** [int Count() const { return pins.size(); }] *)
Definition Count (c : t) : Z := int_of_size_t (size c).

(** [pins[n]] for a [size_t] n: the element when there is one; a read past
    the end of the vector is undefined. *)
Definition subscript (c : t) (n : Z) : outcome T :=
  match nth_error (pins c) (Z.to_nat n) with
  | Some p => Returns p
  | None => Undefined
  end.

(** [[
    T Item(int index)
    {
        if (index < 0 || index > pins.size())
            throw ArgumentOutOfRangeException();
        return pins[index];
    }
    ]] *)
Definition Item (c : t) (index : Z) : outcome T :=
  if (index <? 0) || (size_t_of_int index >? size c)
  then Throws ArgumentOutOfRangeException
  else subscript c (size_t_of_int index).

(** [for (auto pin : pins) pin->Flush();] with the call on a pin written
    as the effect [flush pin]. *)
Definition Flush {E : Type} (flush : T -> E) (c : t) : list E :=
  map flush (pins c).

(** The collection obtained by adding the handles of [l] in order. *)
Definition of_list (l : list T) : t := fold_left (fun c p => Add p c) l new.

End WithPin.
End PinCollection.

Arguments PinCollection.new {T}.

(** ** Collaborators of the element *)

(** [enum class ExecutionState] (lines 97-103). *)
Inductive ExecutionState : Type :=
| WaitingForExecute
| Initializing
| Executing
| Terminating.

(** Modelled from the spec: [MediaState] is declared in [Codec.h], which is
    not part of the sources at hand.  The specification gives the play-state
    enumeration the values [Play] and [Pause]; the element only compares
    values of it for equality. *)
Inductive MediaState : Type :=
| Pause
| Play.

(** Modelled from the spec: [InPinSPTR] and [OutPinSPTR] are shared handles
    to pins declared in [InPin.h] and [OutPin.h].  A handle is identified by
    the pin it points to; the element calls nothing but [Flush] on it. *)
Inductive InPinSPTR : Type := InPin (id : nat).
Inductive OutPinSPTR : Type := OutPin (id : nat).

(** [class InPinCollection : public PinCollection<InPinSPTR>] and
    [class OutPinCollection : public PinCollection<OutPinSPTR>]. *)
Definition InPinCollection : Type := PinCollection.t InPinSPTR.
Definition OutPinCollection : Type := PinCollection.t OutPinSPTR.

Definition ExecutionState_eqb (a b : ExecutionState) : bool :=
  match a, b with
  | WaitingForExecute, WaitingForExecute
  | Initializing, Initializing
  | Executing, Executing
  | Terminating, Terminating => true
  | _, _ => false
  end.

Definition MediaState_eqb (a b : MediaState) : bool :=
  match a, b with
  | Pause, Pause | Play, Play => true
  | _, _ => false
  end.

(** What a call on the element does to the world outside its own fields,
    and the marks the worker leaves as it runs.  [SetStatus] is the write
    [status = state;] itself, recorded so that its place among the other
    effects can be stated. *)
Inductive event : Type :=
| SetStatus (s : ExecutionState)        (* status = s                        *)
| SignalExecution                       (* pthread_cond_signal, line 130     *)
| BroadcastWait (rc : Z)                (* pthread_cond_broadcast, line 277  *)
| InPinFlush (p : InPinSPTR)            (* pin->Flush() on an input pin      *)
| OutPinFlush (p : OutPinSPTR)          (* pin->Flush() on an output pin     *)
| ThreadStart                           (* thread.Start()                    *)
| ThreadCancel                          (* thread.Cancel()                   *)
| ThreadJoin                            (* thread.Join() has returned        *)
| CallInitialize                        (* Initialize() entered              *)
| CallDoWork                            (* DoWork() entered                  *)
| CallChangeState (o n : MediaState)    (* ChangeState(o, n) entered         *)
| CallWake                              (* Wake() entered                    *)
| LoopTest (s : ExecutionState)         (* line 166 read status as s         *)
| StateTest (m : MediaState)            (* line 168 read state as m          *)
| GateTest (b : bool)                   (* line 177 read canSleep as b       *)
| WorkerCancelled                       (* the worker acted on a cancel      *)
| WriteLog (format : string).           (* Log(format, ...) wrote to stderr  *)

(** The lines of [InternalWorkThread] the worker can be at, each named by
    the statement it is about to run. *)
Inductive pc : Type :=
| NotStarted    (* no routine has been started                               *)
| L160          (* Log("... InternalWorkThread entered.")                    *)
| L162          (* SetExecutionState(ExecutionState::Initializing)           *)
| L163          (* Initialize()                                              *)
| L165          (* SetExecutionState(ExecutionState::Executing)              *)
| L166          (* while (status == ExecutionState::Executing)               *)
| L168          (* if (state == MediaState::Play)                            *)
| L170          (* DoWork()                                                  *)
| L173          (* Log("... InternalWorkThread sleeping.")                   *)
| L175          (* pthread_mutex_lock(&waitMutex)                            *)
| L177          (* while (canSleep)                                          *)
| L179          (* inside pthread_cond_wait(&waitCondition, &waitMutex)      *)
| L182          (* canSleep = true                                           *)
| L184          (* pthread_mutex_unlock(&waitMutex)                          *)
| L186          (* Log("... InternalWorkThread woke.")                       *)
| L191          (* SetExecutionState(ExecutionState::WaitingForExecute)      *)
| L193          (* Log("... InternalWorkThread exited.")                     *)
| Finished      (* the routine has returned                                  *)
| Cancelled.    (* the routine was stopped at a cancellation point           *)

(** Modelled from the spec: class [Thread] is not part of the sources at
    hand.  The specification gives it [Start] (begin running the routine
    asynchronously), [Cancel] (request a forced stop) and [Join] (block until
    the routine has finished).  A thread is where its routine stands and
    whether a stop has been requested of it. *)
Record Thread : Type := MakeThread {
  worker : pc;
  cancelRequested : bool
}.

(** Who holds [waitMutex]. *)
Inductive owner : Type :=
| Caller
| Worker.

(** ** The fields of [Element] (lines 107-122)

    [waitCondition] and [executionWaitCondition] have no state of their own
    here: a signal on them is an [event].  [executionWaitMutex] is only ever
    held across the single signal of line 130 or by a waiter about to wait,
    so it is always granted and is left out. *)
Record Element : Type := MakeElement {
  thread : Thread;
  state : MediaState;
  inputs : InPinCollection;
  outputs : OutPinCollection;
  status : ExecutionState;
  waitMutex : option owner;
  canSleep : bool;
  name : string;
  logEnabled : bool
}.

(** The member initialisers of lines 107-122 followed by [Element() {}]. *)
Definition new_Element : Element :=
  {| thread := MakeThread NotStarted false;
     state := Pause;
     inputs := PinCollection.new;
     outputs := PinCollection.new;
     status := WaitingForExecute;
     waitMutex := None;
     canSleep := true;
     name := "Element"%string;
     logEnabled := false |}.

Definition with_thread (t : Thread) (e : Element) : Element :=
  MakeElement t (state e) (inputs e) (outputs e) (status e) (waitMutex e)
    (canSleep e) (name e) (logEnabled e).
Definition with_state (m : MediaState) (e : Element) : Element :=
  MakeElement (thread e) m (inputs e) (outputs e) (status e) (waitMutex e)
    (canSleep e) (name e) (logEnabled e).
Definition with_inputs (c : InPinCollection) (e : Element) : Element :=
  MakeElement (thread e) (state e) c (outputs e) (status e) (waitMutex e)
    (canSleep e) (name e) (logEnabled e).
Definition with_outputs (c : OutPinCollection) (e : Element) : Element :=
  MakeElement (thread e) (state e) (inputs e) c (status e) (waitMutex e)
    (canSleep e) (name e) (logEnabled e).
Definition with_status (s : ExecutionState) (e : Element) : Element :=
  MakeElement (thread e) (state e) (inputs e) (outputs e) s (waitMutex e)
    (canSleep e) (name e) (logEnabled e).
Definition with_waitMutex (o : option owner) (e : Element) : Element :=
  MakeElement (thread e) (state e) (inputs e) (outputs e) (status e) o
    (canSleep e) (name e) (logEnabled e).
Definition with_canSleep (b : bool) (e : Element) : Element :=
  MakeElement (thread e) (state e) (inputs e) (outputs e) (status e)
    (waitMutex e) b (name e) (logEnabled e).
Definition with_name (n : string) (e : Element) : Element :=
  MakeElement (thread e) (state e) (inputs e) (outputs e) (status e)
    (waitMutex e) (canSleep e) n (logEnabled e).
Definition with_logEnabled (b : bool) (e : Element) : Element :=
  MakeElement (thread e) (state e) (inputs e) (outputs e) (status e)
    (waitMutex e) (canSleep e) (name e) b.

Definition at_pc (l : pc) (e : Element) : Element :=
  with_thread (MakeThread l (cancelRequested (thread e))) e.

(** What the specification calls the observable state of the element:
    [executionStatus], [playState], [name] and both pin collections. *)
Definition observable (e : Element)
  : ExecutionState * MediaState * string * InPinCollection * OutPinCollection :=
  (status e, state e, name e, inputs e, outputs e).

(** ** The monad of member functions *)

Record run (A : Type) : Type := Run {
  result : outcome A;
  after : Element;
  effects : list event
}.

Definition M (A : Type) : Type := Element -> run A.

Definition ret {A} (a : A) : M A := fun e => Run (Returns a) e [].

Definition throw {A} (x : exception) : M A := fun e => Run (Throws x) e [].

Definition bind {A B} (m : M A) (k : A -> M B) : M B :=
  fun e =>
    let r := m e in
    match result r with
    | Returns a =>
        let r' := k a (after r) in
        Run (result r') (after r') (effects r ++ effects r')
    | Throws x => Run (Throws x) (after r) (effects r)
    | Blocks => Run Blocks (after r) (effects r)
    | Undefined => Run Undefined (after r) (effects r)
    end.

Definition get {A} (field : Element -> A) : M A :=
  fun e => Run (Returns (field e)) e [].

Definition modify (f : Element -> Element) : M unit :=
  fun e => Run (Returns tt) (f e) [].

Definition emit (ev : event) : M unit :=
  fun e => Run (Returns tt) e [ev].

Definition emit_all (evs : list event) : M unit :=
  fun e => Run (Returns tt) e evs.

Declare Scope element_scope.
Delimit Scope element_scope with element.
Notation "x <- m ;; k" := (bind m (fun x => k))
  (at level 61, m at next level, right associativity) : element_scope.
Notation "m ;; k" := (bind m (fun _ => k))
  (at level 61, right associativity) : element_scope.
Local Open Scope element_scope.

(** ** Primitives *)

(** [void Log(const char* message, ...)] (lines 342-359): writes to stderr
    when [logEnabled] is set and touches no field.  The text written is not
    modelled: lines 350-356 build the format from the name with [sprintf] in
    a buffer of 1024 bytes, which is undefined for a name that holds a
    conversion specification or does not fit. *)
Definition Log (format : string) : M unit :=
  fun e => Run (Returns tt) e (if logEnabled e then [WriteLog format] else []).

(** [pthread_mutex_lock(&waitMutex)] by thread [who].  The mutex is a
    default, non-recursive one: while anybody holds it the call waits. *)
Definition lock_waitMutex (who : owner) : M unit :=
  fun e =>
    match waitMutex e with
    | None => Run (Returns tt) (with_waitMutex (Some who) e) []
    | Some _ => Run Blocks e []
    end.

(** [pthread_mutex_unlock(&waitMutex)] *)
Definition unlock_waitMutex : M unit := modify (with_waitMutex None).

(** [[
    void SetExecutionState(ExecutionState state)
    {
        status = state;
        pthread_mutex_lock(&executionWaitMutex);
        pthread_cond_signal(&executionWaitCondition);
        pthread_mutex_unlock(&executionWaitMutex);
    }
    ]] *)
Definition SetExecutionState (s : ExecutionState) : M unit :=
  modify (with_status s) ;;
  emit (SetStatus s) ;;
  emit SignalExecution.

(** ** Overridable hooks, as [Element] itself defines them *)

(** [virtual void Initialize() {}] *)
Definition Initialize : M unit :=
  emit CallInitialize.

(** [virtual void DoWork() { Log("Element (%s) DoWork exited.\n", ...); }] *)
Definition DoWork : M unit :=
  emit CallDoWork ;;
  Log "Element (%s) DoWork exited.\n".

(** [[
    virtual void Flush()
    {
        inputs.Flush();
        outputs.Flush();
        Log("Element (%s) Flush exited.\n", name.c_str());
    }
    ]] *)
Definition Flush : M unit :=
  ins <- get inputs ;;
  emit_all (PinCollection.Flush InPinFlush ins) ;;
  outs <- get outputs ;;
  emit_all (PinCollection.Flush OutPinFlush outs) ;;
  Log "Element (%s) Flush exited.\n".

(** ** The worker: [void InternalWorkThread()] (lines 158-194) *)

(** Run the statement [m] and move on to line [next]. *)
Definition advance (next : pc) (m : M unit) (e : Element)
  : option (Element * list event) :=
  let r := m e in Some (at_pc next (after r), effects r).

(** One statement of the worker, or [None] when the worker cannot move: it
    has not been started, it has finished, or it waits (for [waitMutex] at
    line 175, inside [pthread_cond_wait] at line 179).

    [pthread_cond_wait] gives the mutex up while it waits and takes it back
    before it returns.  It returns after a broadcast; returns without one are
    allowed by POSIX but lead straight back into the wait through the test
    of line 177, so the worker is taken to leave the wait only once
    [canSleep] has been cleared.  It is also the one cancellation point of
    the loop: a worker for which [Cancel] was requested takes the mutex back
    and stops there, with nothing after line 179 run and the mutex kept.

    With [logEnabled] set, the [Log] calls of the routine write through
    [vfprintf], where a pending stop can take the worker as well.  Those
    further stop points are not part of the step: what is stated below about
    the line at which a stop lands is stated for [logEnabled] clear. *)
Definition worker_step (e : Element) : option (Element * list event) :=
  match worker (thread e) with
  | NotStarted | Finished | Cancelled => None
  | L160 => advance L162 (Log "Element (%s) InternalWorkThread entered.\n") e
  | L162 => advance L163 (SetExecutionState Initializing) e
  | L163 => advance L165 Initialize e
  | L165 => advance L166 (SetExecutionState Executing) e
  | L166 =>
      Some (at_pc (if ExecutionState_eqb (status e) Executing
                   then L168 else L191) e,
            [LoopTest (status e)])
  | L168 =>
      Some (at_pc (if MediaState_eqb (state e) Play then L170 else L173) e,
            [StateTest (state e)])
  | L170 => advance L173 DoWork e
  | L173 => advance L175 (Log "Element (%s) InternalWorkThread sleeping.\n") e
  | L175 =>
      match waitMutex e with
      | None => advance L177 (lock_waitMutex Worker) e
      | Some _ => None
      end
  | L177 =>
      if canSleep e
      then Some (at_pc L179 (with_waitMutex None e), [GateTest true])
      else Some (at_pc L182 e, [GateTest false])
  | L179 =>
      match waitMutex e with
      | Some _ => None
      | None =>
          if cancelRequested (thread e)
          then Some (at_pc Cancelled (with_waitMutex (Some Worker) e),
                     [WorkerCancelled])
          else if canSleep e then None
          else Some (at_pc L177 (with_waitMutex (Some Worker) e), [])
      end
  | L182 => advance L184 (modify (with_canSleep true)) e
  | L184 => advance L186 unlock_waitMutex e
  | L186 => advance L166 (Log "Element (%s) InternalWorkThread woke.\n") e
  | L191 => advance L193 (SetExecutionState WaitingForExecute) e
  | L193 => advance Finished (Log "Element (%s) InternalWorkThread exited.\n") e
  end.

(** The worker left to itself for at most [fuel] statements. *)
Fixpoint run_worker (fuel : nat) (e : Element) : Element * list event :=
  match fuel with
  | O => (e, [])
  | S fuel' =>
      match worker_step e with
      | None => (e, [])
      | Some (e', evs) =>
          let (e'', evs') := run_worker fuel' e' in (e'', evs ++ evs')
      end
  end.

(** Left to itself the worker comes to rest within this many statements
    wherever it starts (see [worker_comes_to_rest]): it has either finished
    or is waiting. *)
Definition worker_bound : nat := 32.

Definition exited (l : pc) : bool :=
  match l with
  | Finished | Cancelled => true
  | _ => false
  end.

(** ** Thread *)

(** Modelled from the spec: [Thread::Start] begins running the routine the
    thread was built from, here [InternalWorkThread], from its first line.
    What [Start] does on a thread that has been started already is not
    given; here it begins the routine anew, and [Execute_over] leaves it
    open. *)
Definition Thread_Start : M unit :=
  modify (with_thread (MakeThread L160 false)) ;;
  emit ThreadStart.

(** Modelled from the spec: [Thread::Cancel] requests a forced stop of the
    routine; the routine acts on it at its next cancellation point. *)
Definition Thread_Cancel : M unit :=
  modify (fun e => with_thread (MakeThread (worker (thread e)) true) e) ;;
  emit ThreadCancel.

(** Modelled from the spec: [Thread::Join] blocks the caller until the
    routine has finished.  While the caller waits the worker runs; if the
    worker comes to rest without having finished, the call never returns. *)
Definition Thread_Join : M unit :=
  fun e =>
    let (e', evs) := run_worker worker_bound e in
    if exited (worker (thread e'))
    then Run (Returns tt) e' (evs ++ [ThreadJoin])
    else Run Blocks e' evs.

(** ** Public member functions of [Element] *)

(** [InPinCollection* Inputs()], [OutPinCollection* Outputs()],
    [ExecutionState Status() const], [std::string Name() const],
    [bool LogEnabled() const], [virtual MediaState State()]. *)
Definition Inputs : M InPinCollection := get inputs.
Definition Outputs : M OutPinCollection := get outputs.
Definition Status : M ExecutionState := get status.
Definition Name : M string := get name.
Definition LogEnabled : M bool := get logEnabled.
Definition State : M MediaState := get state.

(** [void SetName(std::string name)], [void SetLogEnabled(bool value)]. *)
Definition SetName (n : string) : M unit := modify (with_name n).
Definition SetLogEnabled (value : bool) : M unit := modify (with_logEnabled value).

(** [AddInputPin], [ClearInputPins], [AddOutputPin], [ClearOutputPins]
    (lines 197-213). *)
Definition AddInputPin (pin : InPinSPTR) : M unit :=
  modify (fun e => with_inputs (PinCollection.Add pin (inputs e)) e).
Definition ClearInputPins : M unit :=
  modify (fun e => with_inputs (PinCollection.Clear (inputs e)) e).
Definition AddOutputPin (pin : OutPinSPTR) : M unit :=
  modify (fun e => with_outputs (PinCollection.Add pin (outputs e)) e).
Definition ClearOutputPins : M unit :=
  modify (fun e => with_outputs (PinCollection.Clear (outputs e)) e).

(** [[
    virtual void Execute()
    {
        if (status != ExecutionState::WaitingForExecute)
            throw InvalidOperationException("status != ExecutionState::WaitingForExecute");
        thread.Start();
        Log("Element (%s) Execute.\n", name.c_str());
    }
    ]] *)
Definition Execute : M unit :=
  s <- get status ;;
  if negb (ExecutionState_eqb s WaitingForExecute)
  then throw (InvalidOperationException
                "status != ExecutionState::WaitingForExecute")
  else
    Thread_Start ;;
    Log "Element (%s) Execute.\n".

(** [[
    virtual void Wake()
    {
        pthread_mutex_lock(&waitMutex);
        canSleep = false;
        if (pthread_cond_broadcast(&waitCondition) != 0)
        {
            throw Exception("Element::Wake - pthread_cond_broadcast failed.");
        }
        pthread_mutex_unlock(&waitMutex);
        Log("Element (%s) Wake.\n", name.c_str());
    }
    ]]
    [rc] is what [pthread_cond_broadcast] returns to this call. *)
Definition Wake (rc : Z) : M unit :=
  emit CallWake ;;
  lock_waitMutex Caller ;;
  modify (with_canSleep false) ;;
  emit (BroadcastWait rc) ;;
  (if negb (rc =? 0)
   then throw (Exception "Element::Wake - pthread_cond_broadcast failed.")
   else ret tt) ;;
  unlock_waitMutex ;;
  Log "Element (%s) Wake.\n".

(** [[
    virtual void Terminate()
    {
        if (status != ExecutionState::Executing)
            throw InvalidOperationException();
        SetExecutionState(ExecutionState::Terminating);
        Flush();
        thread.Cancel();
        thread.Join();
        Log("Element (%s) Terminate.\n", name.c_str());
    }
    ]] *)
Definition Terminate : M unit :=
  s <- get status ;;
  if negb (ExecutionState_eqb s Executing)
  then throw (InvalidOperationException EmptyString)
  else
    SetExecutionState Terminating ;;
    Flush ;;
    Thread_Cancel ;;
    Thread_Join ;;
    Log "Element (%s) Terminate.\n".

(** [[
    virtual void ChangeState(MediaState oldState, MediaState newState)
    {
        state = newState;
        Wake();
        Log("Element (%s) ChangeState oldState=%d newState=%d.\n", ...);
    }
    ]] *)
Definition ChangeState (rc : Z) (oldState newState : MediaState) : M unit :=
  emit (CallChangeState oldState newState) ;;
  modify (with_state newState) ;;
  Wake rc ;;
  Log "Element (%s) ChangeState oldState=%d newState=%d.\n".

(** [[
    virtual void SetState(MediaState value)
    {
        if (state != value)
        {
            ChangeState(state, value);
        }
    }
    ]] *)
Definition SetState (rc : Z) (value : MediaState) : M unit :=
  s <- get state ;;
  if negb (MediaState_eqb s value)
  then ChangeState rc s value
  else ret tt.

(** ** Repeated calls and interleaved executions *)

(** [Wake()] called [n] times in a row, every broadcast succeeding. *)
Fixpoint Wake_times (n : nat) : M unit :=
  match n with
  | O => ret tt
  | S n' => Wake 0 ;; Wake_times n'
  end.

(** An execution of the element: statements of the worker interleaved with
    whatever other threads do to the element in between, which [rely]
    bounds.  No other thread can move the worker's program counter.  The
    trace lists what the worker did, oldest first. *)
Inductive execution (rely : Element -> Element -> Prop)
  : Element -> list event -> Element -> Prop :=
| execution_done e :
    execution rely e [] e
| execution_worker e e' evs e'' tr :
    worker_step e = Some (e', evs) ->
    execution rely e' tr e'' ->
    execution rely e (evs ++ tr) e''
| execution_other e e' e'' tr :
    rely e e' ->
    worker (thread e') = worker (thread e) ->
    execution rely e' tr e'' ->
    execution rely e tr e''.

(** Other threads may do anything. *)
Definition any_interference (e e' : Element) : Prop := True.

(** Other threads make no lifecycle call: [status] and the cancel request
    are left alone ([Wake], [SetState], [SetName], ... qualify). *)
Definition no_lifecycle_call (e e' : Element) : Prop :=
  status e' = status e /\
  cancelRequested (thread e') = cancelRequested (thread e).

(** As [no_lifecycle_call], and the play state stays [Pause]. *)
Definition stays_paused (e e' : Element) : Prop :=
  no_lifecycle_call e e' /\ state e' = Pause.

(** Other threads do not call [Wake]: [canSleep] is left alone. *)
Definition no_wake (e e' : Element) : Prop := canSleep e' = canSleep e.

(** Where one iteration of the loop of lines 166-189 stands with respect to
    its work step: the state has not been tested yet, it was tested and read
    [Play] with [DoWork] still to come, or no [DoWork] is due. *)
Inductive phase : Type :=
| Untested
| Due
| NotDue.

Definition phase_of (l : pc) : phase :=
  match l with
  | L168 => Untested
  | L170 => Due
  | _ => NotDue
  end.

(** The trace keeps the discipline of the loop: the state is tested once per
    iteration, and [DoWork] is entered only in an iteration whose test read
    [Play], and once. *)
Fixpoint loop_discipline (p : phase) (tr : list event) : bool :=
  match tr with
  | [] => true
  | LoopTest s :: tr' =>
      loop_discipline (if ExecutionState_eqb s Executing
                       then Untested else NotDue) tr'
  | StateTest m :: tr' =>
      match p with
      | Untested =>
          loop_discipline (if MediaState_eqb m Play then Due else NotDue) tr'
      | _ => false
      end
  | CallDoWork :: tr' =>
      match p with
      | Due => loop_discipline NotDue tr'
      | _ => false
      end
  | _ :: tr' => loop_discipline p tr'
  end.

(** The worker is inside the loop of lines 166-189. *)
Definition in_loop (l : pc) : bool :=
  match l with
  | L166 | L168 | L170 | L173 | L175 | L177 | L179 | L182 | L184 | L186 => true
  | _ => false
  end.

Definition is_DoWork (ev : event) : bool :=
  match ev with CallDoWork => true | _ => false end.

Definition is_gate_passed (ev : event) : bool :=
  match ev with GateTest false => true | _ => false end.

Definition is_iteration (ev : event) : bool :=
  match ev with LoopTest Executing => true | _ => false end.

Definition is_pin_flush (ev : event) : bool :=
  match ev with InPinFlush _ | OutPinFlush _ => true | _ => false end.

Definition count (f : event -> bool) (tr : list event) : nat :=
  List.length (filter f tr).

(** The state in which [Terminate] reaches [thread.Join()]: the status
    written by line 292 and the stop requested by line 295. *)
Definition at_Join (e : Element) : Element :=
  with_thread (MakeThread (worker (thread e)) true) (with_status Terminating e).

(** What [Log(format, ...)] writes for element [e]. *)
Definition logged (e : Element) (format : string) : list event :=
  if logEnabled e then [WriteLog format] else [].

(** The status the worker has written last when it stands at line [l], as
    long as no other thread has written [status] since. *)
Definition published (l : pc) : option ExecutionState :=
  match l with
  | L163 | L165 => Some Initializing
  | L166 | L168 | L170 | L173 | L175 | L177 | L179 | L182 | L184 | L186 =>
      Some Executing
  | _ => None
  end.

(** The events the worker's routine can give rise to: none of them is a
    call on a pin or on the thread. *)
Definition by_worker (ev : event) : bool :=
  match ev with
  | SetStatus _ | SignalExecution | CallInitialize | CallDoWork
  | LoopTest _ | StateTest _ | GateTest _ | WorkerCancelled | WriteLog _ => true
  | _ => false
  end.

(** A bound on the statements the worker still runs when left to itself:
    it decreases with every statement (see [worker_step_rank]). *)
Definition rank (e : Element) : nat :=
  match worker (thread e), canSleep e with
  | (NotStarted | Finished | Cancelled), _ => 0
  | L193, _ => 1
  | L191, _ => 2
  | L179, true => 1
  | L177, true => 2
  | L175, true => 3
  | L173, true => 4
  | L170, true => 5
  | L168, true => 6
  | L166, true => 7
  | L186, true => 8
  | L184, true => 9
  | L182, _ => 10
  | L177, false => 11
  | L179, false => 12
  | L175, false => 12
  | L173, false => 13
  | L170, false => 14
  | L168, false => 15
  | L166, false => 16
  | L186, false => 17
  | L184, false => 18
  | L165, _ => 17
  | L163, _ => 18
  | L162, _ => 19
  | L160, _ => 20
  end%nat.

Definition is_Wake (ev : event) : bool :=
  match ev with CallWake => true | _ => false end.

(** What the worker did after it first found the gate open. *)
Fixpoint since_gate_passed (tr : list event) : list event :=
  match tr with
  | [] => []
  | GateTest false :: tr' => tr'
  | _ :: tr' => since_gate_passed tr'
  end.

(** A paused element whose worker is inside the loop, not about to enter
    [DoWork], with no stop requested. *)
Definition idling (e : Element) : Prop :=
  state e = Pause /\ status e = Executing /\
  cancelRequested (thread e) = false /\
  in_loop (worker (thread e)) = true /\ worker (thread e) <> L170.

(** ** The rendezvous on the execution state

    [[
    void WaitForExecutionState(ExecutionState state)
    {
        pthread_mutex_lock(&executionWaitMutex);
        while (status != state)
        {
            pthread_cond_wait(&executionWaitCondition, &executionWaitMutex);
        }
        pthread_mutex_unlock(&executionWaitMutex);
    }
    ]]
    The test of line 331 on the element as the caller finds it: the call
    returns when the status is the awaited one, and otherwise waits inside
    [pthread_cond_wait], to test again, on the element as it then is, when
    the condition is next signalled. *)
Definition WaitForExecutionState (target : ExecutionState) : M unit :=
  fun e =>
    if ExecutionState_eqb (status e) target
    then Run (Returns tt) e []
    else Run Blocks e [].

(** ** Readings of a trace *)

Definition is_Initialize (ev : event) : bool :=
  match ev with CallInitialize => true | _ => false end.

Definition is_log (ev : event) : bool :=
  match ev with WriteLog _ => true | _ => false end.

(** The trace without what was written to the log. *)
Definition quiet (tr : list event) : list event :=
  filter (fun ev => negb (is_log ev)) tr.

(** The status writes and the call of [Initialize] of a trace, in order. *)
Definition is_milestone (ev : event) : bool :=
  match ev with
  | SetStatus _ | CallInitialize => true
  | _ => false
  end.

Definition milestones (tr : list event) : list event := filter is_milestone tr.

(** The milestones a worker standing at line [l] still has before it. *)
Definition milestones_ahead (l : pc) : list event :=
  match l with
  | L160 | L162 =>
      [SetStatus Initializing; CallInitialize; SetStatus Executing;
       SetStatus WaitingForExecute]
  | L163 => [CallInitialize; SetStatus Executing; SetStatus WaitingForExecute]
  | L165 => [SetStatus Executing; SetStatus WaitingForExecute]
  | L166 | L168 | L170 | L173 | L175 | L177 | L179 | L182 | L184 | L186
  | L191 => [SetStatus WaitingForExecute]
  | NotStarted | L193 | Finished | Cancelled => []
  end.

Definition event_eqb (a b : event) : bool :=
  match a, b with
  | SetStatus s, SetStatus s' => ExecutionState_eqb s s'
  | CallInitialize, CallInitialize => true
  | _, _ => false
  end.

(** [p] is an initial segment of [l], for lists of milestones. *)
Fixpoint starts (p l : list event) : bool :=
  match p, l with
  | [], _ => true
  | a :: p', b :: l' => event_eqb a b && starts p' l'
  | _ :: _, [] => false
  end.

(** A worker inside the loop of an element that is [Executing], with no stop
    requested of it. *)
Definition looping (e : Element) : Prop :=
  in_loop (worker (thread e)) = true /\ status e = Executing /\
  cancelRequested (thread e) = false.

(** Where a worker that cannot move stands: not started, finished or
    stopped, waiting for [waitMutex] at line 175, or inside
    [pthread_cond_wait] at line 179. *)
Definition resting (e : Element) : bool :=
  match worker (thread e) with
  | NotStarted | Finished | Cancelled => true
  | L175 => match waitMutex e with Some _ => true | None => false end
  | L179 =>
      match waitMutex e with
      | Some _ => true
      | None => negb (cancelRequested (thread e)) && canSleep e
      end
  | _ => false
  end.

(** The lines at which the worker holds [waitMutex]: from the lock of line
    175 to the unlock of line 184, the wait of line 179 apart. *)
Definition holds_mutex (l : pc) : bool :=
  match l with
  | L177 | L182 | L184 => true
  | _ => false
  end.

(** The mutex is held by the worker exactly at those lines, and no stop has
    been requested. *)
Definition mutex_in_order (e : Element) : Prop :=
  cancelRequested (thread e) = false /\
  waitMutex e = if holds_mutex (worker (thread e)) then Some Worker else None.

(** Other threads leave [waitMutex] as they found it (every call of theirs
    that took it has given it back) and request no stop. *)
Definition mutex_respected (e e' : Element) : Prop :=
  waitMutex e' = waitMutex e /\
  cancelRequested (thread e') = cancelRequested (thread e).

(** [Execute] with [thread.Start()] left open: [start] is whatever
    [Thread::Start] does to the caller.  Class [Thread] is not part of the
    sources at hand, and nothing says what [Start] does on a thread that has
    been started already. *)
Definition Execute_over (start : M unit) : M unit :=
  s <- get status ;;
  if negb (ExecutionState_eqb s WaitingForExecute)
  then throw (InvalidOperationException
                "status != ExecutionState::WaitingForExecute")
  else
    start ;;
    Log "Element (%s) Execute.\n".

(** * Properties *)

(** ** PinCollection *)

Section PinCollectionFacts.

Variable T : Type.
Implicit Types (c : PinCollection.t T) (l : list T).

Lemma size_t_of_int_nonneg (i : Z) :
  0 <= i -> is_int i -> size_t_of_int i = i.
Proof.
  unfold is_int, INT_MIN, INT_MAX, size_t_of_int. intros Hi Hr.
  apply Z.mod_small. lia.
Qed.

Lemma int_of_size_t_small (n : Z) :
  0 <= n <= INT_MAX -> int_of_size_t n = n.
Proof.
  unfold INT_MAX, int_of_size_t. intros Hn.
  rewrite Z.mod_small by lia. lia.
Qed.

Lemma fold_Add_pins l c :
  PinCollection.pins (fold_left (fun c p => PinCollection.Add p c) l c)
  = PinCollection.pins c ++ l.
Proof.
  revert c. induction l as [|p l IH]; intros c; simpl.
  - now rewrite app_nil_r.
  - rewrite IH. simpl. now rewrite <- app_assoc.
Qed.

(** Adding handles one after the other keeps them in the order of the calls. *)
Lemma of_list_pins l : PinCollection.pins (PinCollection.of_list l) = l.
Proof. unfold PinCollection.of_list. now rewrite fold_Add_pins. Qed.

Lemma Count_small c :
  PinCollection.size c <= INT_MAX ->
  PinCollection.Count c = PinCollection.size c.
Proof.
  intros H. unfold PinCollection.Count. apply int_of_size_t_small.
  unfold PinCollection.size in *. lia.
Qed.

(** Inside [[0, Count)] the lookup returns the handle added at that place. *)
Lemma Item_in_range c (i : Z) :
  is_int i -> 0 <= i < PinCollection.size c ->
  exists p, nth_error (PinCollection.pins c) (Z.to_nat i) = Some p /\
            PinCollection.Item c i = Returns p.
Proof.
  intros Hint [H0 Hlt]. unfold PinCollection.Item.
  rewrite (size_t_of_int_nonneg H0 Hint).
  replace (i <? 0) with false by (symmetry; apply Z.ltb_ge; lia).
  replace (i >? PinCollection.size c) with false
    by (symmetry; rewrite Z.gtb_ltb; apply Z.ltb_ge; lia).
  simpl. unfold PinCollection.subscript, PinCollection.size in *.
  destruct (nth_error (PinCollection.pins c) (Z.to_nat i)) as [p|] eqn:E.
  - now exists p.
  - apply nth_error_None in E. lia.
Qed.

Lemma Item_negative c (i : Z) :
  i < 0 -> PinCollection.Item c i = Throws ArgumentOutOfRangeException.
Proof.
  intros H. unfold PinCollection.Item.
  now replace (i <? 0) with true by (symmetry; apply Z.ltb_lt; lia).
Qed.

Lemma Item_beyond c (i : Z) :
  is_int i -> PinCollection.size c < i ->
  PinCollection.Item c i = Throws ArgumentOutOfRangeException.
Proof.
  intros Hint H. unfold PinCollection.Item.
  assert (0 <= i) by (unfold PinCollection.size in H; lia).
  rewrite (size_t_of_int_nonneg H0 Hint).
  replace (i >? PinCollection.size c) with true
    by (symmetry; rewrite Z.gtb_ltb; apply Z.ltb_lt; lia).
  now rewrite orb_true_r.
Qed.

(** C1 (the code departs from it).  [Item] is to fail with an out-of-range
    error for every index outside [[0, Count)].  The guard of line 63 tests
    [index > pins.size()], so the index equal to [Count()] is let through:
    no [ArgumentOutOfRangeException] is thrown and [pins[index]] reads one
    past the last handle. *)
Theorem Item_at_Count_is_not_rejected c :
  PinCollection.size c <= INT_MAX ->
  PinCollection.Item c (PinCollection.Count c) = Undefined /\
  is_out_of_range (PinCollection.Item c (PinCollection.Count c)) = false.
Proof.
  intros Hsz. rewrite (Count_small _ Hsz).
  assert (Hitem : PinCollection.Item c (PinCollection.size c) = Undefined).
  { unfold PinCollection.Item.
    assert (H0 : 0 <= PinCollection.size c)
      by (unfold PinCollection.size; lia).
    assert (Hint : is_int (PinCollection.size c))
      by (unfold is_int, INT_MIN in *; unfold INT_MAX in *; lia).
    rewrite (size_t_of_int_nonneg H0 Hint).
    replace (PinCollection.size c <? 0) with false
      by (symmetry; apply Z.ltb_ge; lia).
    rewrite Z.gtb_ltb, Z.ltb_irrefl. simpl.
    unfold PinCollection.subscript, PinCollection.size.
    rewrite Nat2Z.id.
    destruct (nth_error (PinCollection.pins c)
                (List.length (PinCollection.pins c))) eqn:E; [|reflexivity].
    assert (nth_error (PinCollection.pins c)
              (List.length (PinCollection.pins c)) = None)
      by (apply nth_error_None; lia).
    congruence. }
  now rewrite Hitem.
Qed.

End PinCollectionFacts.

Lemma Item_at_Count_is_not_rejected_witness :
  let c := PinCollection.of_list [InPin 0; InPin 1; InPin 2] in
  PinCollection.size c <= INT_MAX /\
  PinCollection.Item c 0 = Returns (InPin 0) /\
  PinCollection.Item c 2 = Returns (InPin 2) /\
  PinCollection.Item c (-1) = Throws ArgumentOutOfRangeException /\
  PinCollection.Item c 4 = Throws ArgumentOutOfRangeException /\
  PinCollection.Count c = 3 /\
  PinCollection.Item c 3 = Undefined.
Proof.
  assert (Hsz : PinCollection.size
                  (PinCollection.of_list [InPin 0; InPin 1; InPin 2])
                <= INT_MAX) by (vm_compute; discriminate).
  pose proof (Item_at_Count_is_not_rejected _ Hsz) as [H _].
  repeat split; try reflexivity; try exact Hsz; exact H.
Defined.

(** ** Element: the guards of the lifecycle calls *)

Lemma ExecutionState_eqb_eq (a b : ExecutionState) :
  ExecutionState_eqb a b = true <-> a = b.
Proof. destruct a, b; simpl; split; congruence. Qed.

Lemma MediaState_eqb_eq (a b : MediaState) :
  MediaState_eqb a b = true <-> a = b.
Proof. destruct a, b; simpl; split; congruence. Qed.

Lemma MediaState_eqb_refl (a : MediaState) : MediaState_eqb a a = true.
Proof. now destruct a. Qed.

Lemma Execute_rejected (e : Element) :
  status e <> WaitingForExecute ->
  Execute e =
  Run (Throws (InvalidOperationException
                 "status != ExecutionState::WaitingForExecute")) e [].
Proof.
  intros H. unfold Execute, bind, get, throw; simpl.
  destruct (status e); simpl; congruence.
Qed.

Lemma Execute_accepted (e : Element) :
  status e = WaitingForExecute ->
  result (Execute e) = Returns tt /\
  after (Execute e) = with_thread (MakeThread L160 false) e /\
  status (after (Execute e)) = WaitingForExecute.
Proof.
  intros H. unfold Execute, bind, get, throw, Thread_Start, Log; simpl.
  rewrite H; simpl. destruct (logEnabled e); simpl; auto.
Qed.

Lemma Terminate_rejected (e : Element) :
  status e <> Executing ->
  Terminate e = Run (Throws (InvalidOperationException EmptyString)) e [].
Proof.
  intros H. unfold Terminate, bind, get, throw; simpl.
  destruct (status e); simpl; congruence.
Qed.

Lemma Thread_Join_never_throws (e : Element) :
  (result (Thread_Join e) = Returns tt /\
   exited (worker (thread (after (Thread_Join e)))) = true) \/
  (result (Thread_Join e) = Blocks /\
   exited (worker (thread (after (Thread_Join e)))) = false).
Proof.
  unfold Thread_Join. destruct (run_worker worker_bound e) as [e' evs].
  destruct (exited (worker (thread e'))) eqn:E; simpl; auto.
Qed.

Lemma Log_returns (f : string) (e : Element) :
  result (Log f e) = Returns tt /\ after (Log f e) = e.
Proof. unfold Log, bind, get; simpl. now destruct (logEnabled e). Qed.

(** ** The worker leaves the caller's fields alone *)

Ltac break_element e :=
  let l := fresh "l" in
  destruct e as [[l ?] ? ? ? ? ? ? ? ?]; simpl in *.

Ltac break_ifs H :=
  repeat match type of H with
         | context [if ?b then _ else _] => destruct b; simpl in H
         | context [match ?m with Some _ => _ | None => _ end] =>
             destruct m; simpl in H
         end.

Ltac run_step :=
  unfold advance, SetExecutionState, Initialize, DoWork, Log, lock_waitMutex,
    unlock_waitMutex, bind, get, modify, emit, emit_all, ret, at_pc in *;
  simpl in *.

Lemma worker_step_frame (e e' : Element) (evs : list event) :
  worker_step e = Some (e', evs) ->
  state e' = state e /\ inputs e' = inputs e /\ outputs e' = outputs e /\
  name e' = name e /\ logEnabled e' = logEnabled e /\
  cancelRequested (thread e') = cancelRequested (thread e).
Proof.
  unfold worker_step. break_element e. intros H.
  destruct l; try discriminate; run_step; break_ifs H;
    try discriminate; inversion H; subst; simpl; auto 10.
Qed.

Lemma run_worker_frame (fuel : nat) (e : Element) :
  let e' := fst (run_worker fuel e) in
  state e' = state e /\ inputs e' = inputs e /\ outputs e' = outputs e /\
  name e' = name e /\ logEnabled e' = logEnabled e /\
  cancelRequested (thread e') = cancelRequested (thread e).
Proof.
  revert e. induction fuel as [|n IH]; intros e; simpl; auto 10.
  destruct (worker_step e) as [[e1 evs]|] eqn:E; simpl; auto 10.
  specialize (IH e1). destruct (run_worker n e1) as [e2 evs2]; simpl in *.
  apply worker_step_frame in E.
  intuition congruence.
Qed.

Lemma Thread_Join_frame (e : Element) :
  let e' := after (Thread_Join e) in
  state e' = state e /\ inputs e' = inputs e /\ outputs e' = outputs e /\
  name e' = name e /\ logEnabled e' = logEnabled e.
Proof.
  unfold Thread_Join. pose proof (run_worker_frame worker_bound e) as H.
  destruct (run_worker worker_bound e) as [e' evs]; simpl in *.
  destruct (exited (worker (thread e'))); simpl; intuition.
Qed.

(** [Terminate] past its guard, statement by statement. *)
Lemma Terminate_accepted (e : Element) :
  status e = Executing ->
  Terminate e =
  Run (result (Thread_Join (at_Join e)))
      (after (Thread_Join (at_Join e)))
      (SetStatus Terminating :: SignalExecution ::
       map InPinFlush (PinCollection.pins (inputs e)) ++
       map OutPinFlush (PinCollection.pins (outputs e)) ++
       logged e "Element (%s) Flush exited.\n" ++
       ThreadCancel ::
       effects (Thread_Join (at_Join e)) ++
       match result (Thread_Join (at_Join e)) with
       | Returns _ => logged e "Element (%s) Terminate.\n"
       | _ => []
       end).
Proof.
  intros H.
  unfold Terminate, bind, get, throw, SetExecutionState, Flush, Thread_Cancel,
    modify, emit, emit_all, PinCollection.Flush; simpl.
  rewrite H; simpl. unfold Log, logged, bind, get; simpl.
  destruct (Thread_Join_frame (at_Join e)) as (_ & _ & _ & _ & HL).
  simpl in HL.
  destruct (logEnabled e) eqn:EL; simpl;
    change (with_thread _ (with_status Terminating e)) with (at_Join e);
    destruct (Thread_Join_never_throws (at_Join e)) as [[Hr _]|[Hr _]];
    rewrite Hr; simpl; rewrite ?HL; simpl;
    rewrite <- ?app_assoc; simpl; rewrite <- ?app_assoc; simpl;
    rewrite ?app_nil_r; reflexivity.
Qed.

(** ** Execute *)

Lemma published_step (e e' : Element) (evs : list event) :
  worker_step e = Some (e', evs) ->
  cancelRequested (thread e) = false ->
  published (worker (thread e)) = Some (status e) ->
  published (worker (thread e')) = Some (status e').
Proof.
  unfold worker_step. break_element e. intros H C P. subst.
  destruct l; try discriminate; injection P as <-; run_step; break_ifs H;
    try discriminate; inversion H; subst; reflexivity.
Qed.

Lemma published_execution (e e' : Element) (tr : list event) :
  execution no_lifecycle_call e tr e' ->
  cancelRequested (thread e) = false ->
  published (worker (thread e)) = Some (status e) ->
  published (worker (thread e')) = Some (status e').
Proof.
  induction 1 as [e|e e1 evs e2 tr Hs _ IH|e e1 e2 tr [Hst Hc] Hpc _ IH];
    intros C P; auto.
  - apply IH.
    + apply worker_step_frame in Hs. intuition congruence.
    + eapply published_step; eauto.
  - apply IH; [congruence|]. now rewrite Hpc, Hst.
Qed.

Lemma step_from_L160 (e e' : Element) (evs : list event) :
  worker (thread e) = L160 ->
  worker_step e = Some (e', evs) ->
  worker (thread e') = L162 /\ ~ In (SetStatus Initializing) evs.
Proof.
  unfold worker_step. break_element e. intros -> H.
  run_step; break_ifs H; inversion H; subst; simpl; intuition discriminate.
Qed.

Lemma step_from_L162 (e e' : Element) (evs : list event) :
  worker (thread e) = L162 ->
  worker_step e = Some (e', evs) ->
  published (worker (thread e')) = Some (status e').
Proof.
  unfold worker_step. break_element e. intros -> H.
  run_step; inversion H; subst; reflexivity.
Qed.

Lemma first_status_write (e e' : Element) (tr : list event) :
  execution no_lifecycle_call e tr e' ->
  cancelRequested (thread e) = false ->
  worker (thread e) = L160 \/ worker (thread e) = L162 ->
  In (SetStatus Initializing) tr ->
  published (worker (thread e')) = Some (status e').
Proof.
  induction 1 as [e|e e1 evs e2 tr Hs Hex IH|e e1 e2 tr [_ Hc] Hpc _ IH];
    intros C Hat Hin.
  - destruct Hin.
  - pose proof (worker_step_frame _ Hs) as (_ & _ & _ & _ & _ & C1).
    destruct Hat as [Hat|Hat].
    + destruct (step_from_L160 _ Hat Hs) as [Hpc Hno].
      apply IH; [congruence|now right|].
      apply in_app_or in Hin. tauto.
    + eapply published_execution; [exact Hex|congruence|].
      eapply step_from_L162; eauto.
  - apply IH; [congruence|now rewrite Hpc|exact Hin].
Qed.

Lemma failed_Execute_frame (e : Element) (x : exception) :
  result (Execute e) = Throws x ->
  after (Execute e) = e /\ effects (Execute e) = [].
Proof.
  intros H.
  destruct (ExecutionState_eqb (status e) WaitingForExecute) eqn:E.
  - apply ExecutionState_eqb_eq in E.
    destruct (Execute_accepted e E) as (Hr & _). congruence.
  - assert (Hne : status e <> WaitingForExecute).
    { intros Hs. apply ExecutionState_eqb_eq in Hs. congruence. }
    rewrite (Execute_rejected e Hne). auto.
Qed.

(** The guard of [Execute] and the frame of a rejected call.  [Execute]
    throws the invalid-operation error of line 263 exactly when [status] is
    not [WaitingForExecute] at the call, and a rejected call leaves the
    element as it was and has no effect.  [Execute] itself never writes
    [status]: the worker does, at line 162.  Once the worker has written
    [Initializing], and for as long as no lifecycle call intervenes, another
    [Execute] is rejected, whatever else other threads do and however far the
    worker has got. *)
Lemma Execute_guard_and_frame (e : Element) :
  (is_invalid_operation (result (Execute e)) = true <->
   status e <> WaitingForExecute) /\
  (forall x, result (Execute e) = Throws x ->
     after (Execute e) = e /\ effects (Execute e) = [] /\
     observable (after (Execute e)) = observable e) /\
  status (after (Execute e)) = status e /\
  (forall tr e',
     result (Execute e) = Returns tt ->
     execution no_lifecycle_call (after (Execute e)) tr e' ->
     In (SetStatus Initializing) tr ->
     is_invalid_operation (result (Execute e')) = true).
Proof.
  destruct (ExecutionState_eqb (status e) WaitingForExecute) eqn:E.
  - apply ExecutionState_eqb_eq in E.
    destruct (Execute_accepted e E) as (Hr & Ha & Hs).
    repeat split.
    + rewrite Hr. discriminate.
    + intros H. contradiction.
    + rewrite Hr in H. discriminate.
    + rewrite Hr in H. discriminate.
    + rewrite Hr in H. discriminate.
    + congruence.
    + intros tr e' _ Hex Hin.
      assert (P : published (worker (thread e')) = Some (status e')).
      { eapply first_status_write; [exact Hex| | |exact Hin];
          rewrite Ha; [reflexivity|now left]. }
      rewrite Execute_rejected; [reflexivity|].
      intros Hw. rewrite Hw in P.
      destruct (worker (thread e')); simpl in P; discriminate.
  - assert (Hne : status e <> WaitingForExecute).
    { intros H. apply ExecutionState_eqb_eq in H. congruence. }
    rewrite (Execute_rejected e Hne). simpl.
    repeat split; auto; discriminate.
Qed.

Lemma Execute_is_Execute_over : Execute = Execute_over Thread_Start.
Proof. reflexivity. Qed.

Lemma Execute_over_past_the_guard (start : M unit) (e : Element) :
  status e = WaitingForExecute ->
  Execute_over start e = (start ;; Log "Element (%s) Execute.\n") e.
Proof.
  intros H. unfold Execute_over, bind at 1, get. cbn [result after effects].
  rewrite H. cbn [ExecutionState_eqb negb app].
  unfold bind. destruct (result (start e)); reflexivity.
Qed.

Lemma after_start_then_Log (start : M unit) (f : string) (e : Element) :
  after ((start ;; Log f) e) = after (start e).
Proof.
  unfold bind, Log. destruct (result (start e)); reflexivity.
Qed.

(** C2 (the code departs from it).  A second [Execute] before any
    [Terminate] is to fail with an invalid-operation error, and [Execute] is
    to fail so exactly when the status is not [WaitingForExecute].
    [Execute] never writes [status] itself, as [Terminate] does at line 292;
    the first write is the worker's, at line 162.  When a second call comes
    before that write, the status is still [WaitingForExecute]: the guard of
    lines 262-263 lets the call through and [thread.Start()] is called again
    on a thread already started.  Whatever [Thread::Start] then does, the
    claim fails at that call: either the call does not fail with an
    invalid-operation error, or it does so although the status is
    [WaitingForExecute]. *)
Theorem second_Execute_passes_the_guard (start : M unit) (e : Element) :
  (forall e0, status (after (start e0)) = status e0) ->
  status e = WaitingForExecute ->
  let first := Execute_over start e in
  let second := Execute_over start (after first) in
  status (after first) = WaitingForExecute /\
  second = (start ;; Log "Element (%s) Execute.\n") (after first) /\
  (forall x, result second = Throws x ->
     result (start (after first)) = Throws x) /\
  ~ ((is_invalid_operation (result second) = true <->
      status (after first) <> WaitingForExecute) /\
     is_invalid_operation (result second) = true).
Proof.
  intros Hstart Hs. cbv zeta.
  assert (H1 : status (after (Execute_over start e)) = WaitingForExecute).
  { rewrite (Execute_over_past_the_guard start e Hs), after_start_then_Log.
    now rewrite Hstart. }
  pose proof (Execute_over_past_the_guard start _ H1) as H2.
  split; [exact H1|]. split; [exact H2|]. split.
  - intros x. rewrite H2. unfold bind, Log.
    destruct (result (start (after (Execute_over start e))));
      cbn [result]; congruence.
  - intros [[Hfwd _] Hinv]. apply (Hfwd Hinv). exact H1.
Qed.

(** Two calls of [Execute] in a row on a new element, with [Thread::Start]
    as modelled from the specification. *)
Lemma second_Execute_passes_the_guard_witness :
  let first := Execute new_Element in
  let second := Execute (after first) in
  (forall e0, status (after (Thread_Start e0)) = status e0) /\
  status new_Element = WaitingForExecute /\
  result first = Returns tt /\
  status (after first) = WaitingForExecute /\
  In ThreadStart (effects second) /\
  (forall x, result second = Throws x ->
     x <> InvalidOperationException
            "status != ExecutionState::WaitingForExecute").
Proof.
  cbv zeta.
  assert (Hstart : forall e0, status (after (Thread_Start e0)) = status e0)
    by reflexivity.
  assert (Hs : status new_Element = WaitingForExecute) by reflexivity.
  destruct (second_Execute_passes_the_guard Thread_Start new_Element Hstart Hs)
    as (H1 & _ & H3 & _).
  split; [exact Hstart|]. split; [exact Hs|]. split; [reflexivity|].
  split; [exact H1|]. split; [left; reflexivity|].
  intros x Hx. apply H3 in Hx. discriminate Hx.
Defined.

(** ** Terminate: the guard *)

Lemma Terminate_never_throws_when_Executing (e : Element) :
  status e = Executing ->
  result (Terminate e) = Returns tt \/ result (Terminate e) = Blocks.
Proof.
  intros H. rewrite (Terminate_accepted e H). simpl.
  destruct (Thread_Join_never_throws (at_Join e)) as [[Hr _]|[Hr _]]; auto.
Qed.

Lemma failed_Terminate_frame (e : Element) (x : exception) :
  result (Terminate e) = Throws x ->
  x = InvalidOperationException EmptyString /\
  after (Terminate e) = e /\ effects (Terminate e) = [].
Proof.
  intros H.
  destruct (ExecutionState_eqb (status e) Executing) eqn:E.
  - apply ExecutionState_eqb_eq in E.
    destruct (Terminate_never_throws_when_Executing e E); congruence.
  - assert (Hne : status e <> Executing).
    { intros Hs. apply ExecutionState_eqb_eq in Hs. congruence. }
    rewrite (Terminate_rejected e Hne) in *. simpl in *.
    repeat split; congruence.
Qed.

(** C3.  [Terminate] fails with an invalid-operation error exactly when
    [status] is not [Executing] at the call; on a newly constructed element,
    whose status is [WaitingForExecute], it fails; and a failed [Terminate]
    leaves every field of the element as it was and has no effect. *)
Theorem Terminate_fails_iff_not_Executing (e : Element) :
  (is_invalid_operation (result (Terminate e)) = true <->
   status e <> Executing) /\
  is_invalid_operation (result (Terminate new_Element)) = true /\
  (forall x, result (Terminate e) = Throws x ->
     x = InvalidOperationException EmptyString /\
     after (Terminate e) = e /\ effects (Terminate e) = [] /\
     observable (after (Terminate e)) = observable e).
Proof.
  split; [|split; [reflexivity|]].
  - destruct (ExecutionState_eqb (status e) Executing) eqn:E.
    + apply ExecutionState_eqb_eq in E.
      destruct (Terminate_never_throws_when_Executing e E) as [Hr|Hr];
        rewrite Hr; simpl; split; [discriminate|tauto| discriminate|tauto].
    + assert (Hne : status e <> Executing).
      { intros H. apply ExecutionState_eqb_eq in H. congruence. }
      rewrite (Terminate_rejected e Hne). simpl. tauto.
  - intros x Hx. destruct (failed_Terminate_frame e Hx) as (Hm & Ha & He).
    rewrite Ha. auto.
Qed.

(** ** SetState, ChangeState and Wake *)

Lemma Wake_granted (rc : Z) (e : Element) :
  waitMutex e = None ->
  Wake rc e =
  if rc =? 0
  then Run (Returns tt) (with_canSleep false e)
         (CallWake :: BroadcastWait rc :: logged e "Element (%s) Wake.\n")
  else Run (Throws (Exception "Element::Wake - pthread_cond_broadcast failed."))
         (with_waitMutex (Some Caller) (with_canSleep false e))
         [CallWake; BroadcastWait rc].
Proof.
  break_element e. intros ->.
  unfold Wake, bind, emit, lock_waitMutex, modify, throw, ret, unlock_waitMutex,
    Log, logged, get; simpl.
  destruct (rc =? 0); simpl; [|reflexivity].
  match goal with |- context [if ?b then _ else _] => destruct b end;
    reflexivity.
Qed.

Lemma Wake_refused (rc : Z) (e : Element) (o : owner) :
  waitMutex e = Some o ->
  Wake rc e = Run Blocks e [CallWake].
Proof.
  break_element e. intros ->. reflexivity.
Qed.

(** C9.  [SetState(v)] with [v] the current play state does nothing at all:
    [ChangeState] is not entered, [Wake] is not called, and the element is
    the same afterwards, field for field. *)
Theorem SetState_same_value_is_no_op (rc : Z) (e : Element) :
  SetState rc (state e) e = Run (Returns tt) e [] /\
  ~ In CallWake (effects (SetState rc (state e) e)) /\
  (forall o n, ~ In (CallChangeState o n) (effects (SetState rc (state e) e))).
Proof.
  assert (H : SetState rc (state e) e = Run (Returns tt) e []).
  { unfold SetState, bind, get; simpl.
    now rewrite MediaState_eqb_refl. }
  rewrite H. simpl. repeat split; auto.
Qed.

Lemma ChangeState_run (rc : Z) (o n : MediaState) (e : Element) :
  ChangeState rc o n e =
  let w := Wake rc (with_state n e) in
  Run (result w)
      (after w)
      (CallChangeState o n :: effects w ++
       match result w with
       | Returns _ =>
           logged e "Element (%s) ChangeState oldState=%d newState=%d.\n"
       | _ => []
       end).
Proof.
  unfold ChangeState, bind, emit, modify, Log, logged.
  cbn [result after effects app]. cbv zeta.
  assert (M' : waitMutex (with_state n e) = waitMutex e) by reflexivity.
  assert (L' : forall b, logEnabled (with_canSleep b (with_state n e))
                         = logEnabled e) by reflexivity.
  destruct (waitMutex e) as [w|] eqn:M.
  - rewrite (@Wake_refused rc (with_state n e) w M'). reflexivity.
  - rewrite (Wake_granted rc (with_state n e) M').
    destruct (rc =? 0); cbn [result after effects app]; [|reflexivity].
    rewrite L'. reflexivity.
Qed.

Lemma SetState_changes (rc : Z) (value : MediaState) (e : Element) :
  state e <> value ->
  SetState rc value e =
  let w := Wake rc (with_state value e) in
  Run (result w)
      (after w)
      (CallChangeState (state e) value :: effects w ++
       match result w with
       | Returns _ =>
           logged e "Element (%s) ChangeState oldState=%d newState=%d.\n"
       | _ => []
       end).
Proof.
  intros Hne. unfold SetState, bind, get. cbn [result after effects app].
  destruct (MediaState_eqb (state e) value) eqn:E.
  { apply MediaState_eqb_eq in E. contradiction. }
  cbn [negb]. rewrite ChangeState_run. reflexivity.
Qed.

(** C7.  [SetState(newState)] with [newState] different from the play state
    enters [ChangeState] with the old and the new value, stores the new
    value, and calls [Wake]; whatever [Wake] then does, [status], [name] and
    both pin collections are as they were before the call. *)
Theorem SetState_new_value (rc : Z) (newState : MediaState) (e : Element) :
  state e <> newState ->
  let r := SetState rc newState e in
  state (after r) = newState /\
  (exists rest,
     effects r = CallChangeState (state e) newState :: CallWake :: rest) /\
  status (after r) = status e /\
  name (after r) = name e /\
  inputs (after r) = inputs e /\
  outputs (after r) = outputs e.
Proof.
  intros Hne. rewrite (SetState_changes rc e Hne). cbv zeta.
  assert (M' : waitMutex (with_state newState e) = waitMutex e) by reflexivity.
  destruct (waitMutex e) as [o|] eqn:M.
  - rewrite (@Wake_refused rc (with_state newState e) o) by exact M'.
    simpl. repeat split; eauto.
  - rewrite (Wake_granted rc (with_state newState e)) by exact M'.
    destruct (rc =? 0); simpl; repeat split; eauto.
Qed.

Lemma SetState_new_value_witness :
  let e := new_Element in
  let r := SetState 0 Play e in
  state e <> Play /\
  state (after r) = Play /\
  effects r = [CallChangeState Pause Play; CallWake; BroadcastWait 0] /\
  status (after r) = WaitingForExecute /\
  canSleep (after r) = false.
Proof.
  assert (H : state new_Element <> Play) by discriminate.
  pose proof (SetState_new_value 0 new_Element H) as (H1 & _ & H2 & _).
  repeat split; try exact H; try exact H1; try exact H2.
Defined.

(** C10.  A [Wake] that fails does so with the synchronization error of line
    279, on a broadcast that returned non-zero, and by then line 274 has
    run: [canSleep] is clear in the element the failed call leaves behind,
    which also still holds [waitMutex].  A failed [Execute] or [Terminate],
    by contrast, leaves the element exactly as it was. *)
Theorem failed_Wake_has_cleared_canSleep (rc : Z) (e : Element) (x : exception) :
  result (Wake rc e) = Throws x ->
  x = Exception "Element::Wake - pthread_cond_broadcast failed." /\
  rc <> 0 /\
  canSleep (after (Wake rc e)) = false /\
  waitMutex (after (Wake rc e)) = Some Caller /\
  (canSleep e = true -> after (Wake rc e) <> e) /\
  (forall y, result (Execute e) = Throws y -> after (Execute e) = e) /\
  (forall y, result (Terminate e) = Throws y -> after (Terminate e) = e).
Proof.
  intros H.
  assert (HE : forall y, result (Execute e) = Throws y -> after (Execute e) = e).
  { intros y Hy. now destruct (failed_Execute_frame e Hy). }
  assert (HT : forall y, result (Terminate e) = Throws y ->
                         after (Terminate e) = e).
  { intros y Hy. now destruct (failed_Terminate_frame e Hy) as (_ & ? & _). }
  destruct (waitMutex e) as [o|] eqn:M.
  - rewrite (@Wake_refused rc e o M) in H. discriminate.
  - rewrite (Wake_granted rc e M) in *.
    destruct (rc =? 0) eqn:R; simpl in *; [discriminate|].
    apply Z.eqb_neq in R. inversion H; subst.
    repeat split; auto.
    intros C E. apply (f_equal canSleep) in E. simpl in E. congruence.
Qed.

Lemma failed_Wake_has_cleared_canSleep_witness :
  let r := Wake 1 new_Element in
  result r = Throws (Exception "Element::Wake - pthread_cond_broadcast failed.") /\
  canSleep new_Element = true /\
  canSleep (after r) = false.
Proof.
  assert (H : result (Wake 1 new_Element) =
              Throws (Exception "Element::Wake - pthread_cond_broadcast failed."))
    by reflexivity.
  pose proof (failed_Wake_has_cleared_canSleep 1 new_Element H)
    as (_ & _ & H1 & _).
  repeat split; try exact H; exact H1.
Defined.

(** ** The worker on its own *)

Lemma worker_step_rank (e e' : Element) (evs : list event) :
  worker_step e = Some (e', evs) -> (rank e' < rank e)%nat.
Proof.
  unfold worker_step, rank. break_element e. intros H.
  destruct l; try discriminate; run_step; break_ifs H;
    try discriminate; inversion H; subst; simpl;
    try match goal with b : bool |- context [if ?c then _ else _] =>
          destruct c end; lia.
Qed.

Lemma rank_bounded (e : Element) : (rank e <= worker_bound)%nat.
Proof.
  unfold rank, worker_bound.
  destruct (worker (thread e)), (canSleep e); lia.
Qed.

Lemma run_worker_rests (fuel : nat) (e : Element) :
  (rank e <= fuel)%nat -> worker_step (fst (run_worker fuel e)) = None.
Proof.
  revert e. induction fuel as [|n IH]; intros e Hr; simpl.
  - destruct (worker_step e) as [[e1 evs]|] eqn:E; [|reflexivity].
    apply worker_step_rank in E. lia.
  - destruct (worker_step e) as [[e1 evs]|] eqn:E; [|exact E].
    pose proof (worker_step_rank _ E) as Hlt.
    specialize (IH e1). destruct (run_worker n e1) as [e2 evs2]; simpl in *.
    apply IH. lia.
Qed.

(** Left to itself the worker stops moving within [worker_bound] statements,
    wherever it stands and whatever the fields hold: the fuel of
    [run_worker] never runs out with a statement still to run. *)
Lemma worker_comes_to_rest (e : Element) :
  worker_step (fst (run_worker worker_bound e)) = None.
Proof. apply run_worker_rests, rank_bounded. Qed.

Ltac all_cases e :=
  let l := fresh "l" in
  destruct e as [[l [|]] [|] ? ? [| | |] [[|]|] [|] ? [|]]; destruct l.

Lemma worker_step_events (e e' : Element) (evs : list event) :
  worker_step e = Some (e', evs) -> forallb by_worker evs = true.
Proof.
  unfold worker_step. break_element e. intros H.
  destruct l; try discriminate; run_step; break_ifs H;
    try discriminate; inversion H; subst; reflexivity.
Qed.

Lemma run_worker_events (fuel : nat) (e : Element) :
  forallb by_worker (snd (run_worker fuel e)) = true.
Proof.
  revert e. induction fuel as [|n IH]; intros e; simpl; auto.
  destruct (worker_step e) as [[e1 evs]|] eqn:E; simpl; auto.
  specialize (IH e1). destruct (run_worker n e1) as [e2 evs2]; simpl in *.
  rewrite forallb_app, IH, (worker_step_events _ E). reflexivity.
Qed.

Lemma Thread_Join_run (e : Element) :
  Thread_Join e =
  let w := run_worker worker_bound e in
  if exited (worker (thread (fst w)))
  then Run (Returns tt) (fst w) (snd w ++ [ThreadJoin])
  else Run Blocks (fst w) (snd w).
Proof.
  unfold Thread_Join. now destruct (run_worker worker_bound e).
Qed.

Lemma filter_none (f : event -> bool) (l : list event) :
  forallb (fun ev => negb (f ev)) l = true -> filter f l = [].
Proof.
  induction l as [|a l IH]; simpl; auto.
  intros H. apply andb_prop in H as [Ha Hl].
  destruct (f a); [discriminate|auto].
Qed.

Lemma by_worker_no_pin_flush (l : list event) :
  forallb by_worker l = true -> filter is_pin_flush l = [].
Proof.
  intros H. apply filter_none. rewrite forallb_forall in *.
  intros ev Hin. specialize (H ev Hin). now destruct ev.
Qed.

Lemma by_worker_no_Cancel (l : list event) :
  forallb by_worker l = true -> ~ In ThreadCancel l /\ ~ In ThreadJoin l.
Proof.
  intros H. rewrite forallb_forall in H.
  split; intros Hin; specialize (H _ Hin); discriminate.
Qed.

Lemma filter_pin_flush_map_in (l : list InPinSPTR) :
  filter is_pin_flush (map InPinFlush l) = map InPinFlush l.
Proof. induction l; simpl; congruence. Qed.

Lemma filter_pin_flush_map_out (l : list OutPinSPTR) :
  filter is_pin_flush (map OutPinFlush l) = map OutPinFlush l.
Proof. induction l; simpl; congruence. Qed.

Lemma filter_pin_flush_logged (e : Element) (f : string) :
  filter is_pin_flush (logged e f) = [].
Proof. unfold logged. now destruct (logEnabled e). Qed.

(** ** Terminate: what it does and in which order *)

Lemma pin_flushes_of_Terminate (e : Element) (evs tail : list event) :
  forallb by_worker evs = true ->
  filter is_pin_flush tail = [] ->
  filter is_pin_flush
    (SetStatus Terminating :: SignalExecution ::
     map InPinFlush (PinCollection.pins (inputs e)) ++
     map OutPinFlush (PinCollection.pins (outputs e)) ++
     logged e "Element (%s) Flush exited.\n" ++
     ThreadCancel :: evs ++ tail) =
  map InPinFlush (PinCollection.pins (inputs e)) ++
  map OutPinFlush (PinCollection.pins (outputs e)).
Proof.
  intros Hev Ht. cbn [filter is_pin_flush].
  rewrite !filter_app. cbn [filter is_pin_flush]. rewrite filter_app.
  rewrite filter_pin_flush_map_in, filter_pin_flush_map_out,
    filter_pin_flush_logged, (by_worker_no_pin_flush _ Hev), Ht.
  cbn [app]. now rewrite !app_nil_r.
Qed.

Lemma Terminate_prefix (e : Element) :
  after (SetExecutionState Terminating e) = with_status Terminating e /\
  after (Flush (after (SetExecutionState Terminating e)))
    = with_status Terminating e /\
  after (Thread_Cancel
           (after (Flush (after (SetExecutionState Terminating e)))))
    = at_Join e.
Proof. repeat split. Qed.

Lemma status_after_the_stop (e : Element) :
  status e = Executing -> in_loop (worker (thread e)) = true ->
  status (fst (run_worker worker_bound (at_Join e))) = Terminating \/
  status (fst (run_worker worker_bound (at_Join e))) = WaitingForExecute.
Proof.
  all_cases e; intros Hs Hl; try discriminate Hs; try discriminate Hl;
    vm_compute; auto.
Qed.

(** C4.  Past its guard, [Terminate] first writes [Terminating] to [status],
    then flushes every pin of the input collection and then every pin of the
    output collection, each once and in the order the pins were added, then
    requests the worker to stop, and then waits for it.  The status is
    [Terminating] from line 292 on: it is so when the pins are flushed and
    when the stop is requested, and only the worker, running while [Join]
    waits, can change it afterwards (to [WaitingForExecute], when it was in
    its loop).  Between the request and the return of [Join] only the worker
    acts, and [Terminate] returns exactly when the worker has exited. *)
Theorem Terminate_order_of_effects (e : Element) :
  status e = Executing ->
  let r := Terminate e in
  let written := after (SetExecutionState Terminating e) in
  let flushed := after (Flush written) in
  let requested := after (Thread_Cancel flushed) in
  status written = Terminating /\
  status flushed = Terminating /\
  status requested = Terminating /\
  cancelRequested (thread requested) = true /\
  after r = fst (run_worker worker_bound requested) /\
  (in_loop (worker (thread e)) = true ->
   status (after r) = Terminating \/ status (after r) = WaitingForExecute) /\
  exists worker_events,
    worker_events = snd (run_worker worker_bound requested) /\
    forallb by_worker worker_events = true /\
    effects r =
      SetStatus Terminating :: SignalExecution ::
      map InPinFlush (PinCollection.pins (inputs e)) ++
      map OutPinFlush (PinCollection.pins (outputs e)) ++
      logged e "Element (%s) Flush exited.\n" ++
      ThreadCancel ::
      worker_events ++
      match result r with
      | Returns _ => ThreadJoin :: logged e "Element (%s) Terminate.\n"
      | _ => []
      end /\
    filter is_pin_flush (effects r) =
      map InPinFlush (PinCollection.pins (inputs e)) ++
      map OutPinFlush (PinCollection.pins (outputs e)) /\
    (result r = Returns tt <-> exited (worker (thread (after r))) = true) /\
    (result r = Returns tt \/ result r = Blocks) /\
    worker_step (after r) = None.
Proof.
  intros H. cbv zeta.
  destruct (Terminate_prefix e) as (P1 & P2 & P3).
  rewrite P3, P2, P1.
  split; [reflexivity|]. split; [reflexivity|]. split; [reflexivity|].
  split; [reflexivity|].
  rewrite (Terminate_accepted e H).
  cbn [result after effects].
  rewrite Thread_Join_run. cbv zeta.
  pose proof (run_worker_events worker_bound (at_Join e)) as Hev.
  pose proof (worker_comes_to_rest (at_Join e)) as Hrest.
  pose proof (status_after_the_stop e H) as Hst.
  destruct (run_worker worker_bound (at_Join e)) as [e' evs].
  cbn [fst snd] in *.
  assert (Ha : after (if exited (worker (thread e'))
                      then Run (Returns tt) e' (evs ++ [ThreadJoin])
                      else Run Blocks e' evs) = e')
    by (destruct (exited (worker (thread e'))); reflexivity).
  rewrite Ha.
  split; [reflexivity|]. split; [exact Hst|].
  exists evs. split; [reflexivity|]. split; [exact Hev|].
  destruct (exited (worker (thread e'))) eqn:E; cbn [result after effects].
  - split; [now rewrite <- app_assoc|].
    split.
    { rewrite <- app_assoc. apply pin_flushes_of_Terminate; [exact Hev|].
      cbn [app filter is_pin_flush]. apply filter_pin_flush_logged. }
    split; [split; intros X; congruence|].
    split; [now left|exact Hrest].
  - split; [reflexivity|].
    split; [now apply pin_flushes_of_Terminate|].
    split; [split; intros X; congruence|].
    split; [now right|exact Hrest].
Qed.

Lemma Terminate_order_of_effects_witness :
  let e :=
    with_status Executing
      (with_inputs (PinCollection.of_list [InPin 1; InPin 2])
         (with_outputs (PinCollection.of_list [OutPin 7; OutPin 8; OutPin 9])
            (at_pc L179 new_Element))) in
  status e = Executing /\
  status (after (SetExecutionState Terminating e)) = Terminating /\
  result (Terminate e) = Returns tt /\
  status (after (Terminate e)) = Terminating /\
  filter is_pin_flush (effects (Terminate e)) =
    [InPinFlush (InPin 1); InPinFlush (InPin 2);
     OutPinFlush (OutPin 7); OutPinFlush (OutPin 8); OutPinFlush (OutPin 9)] /\
  effects (Terminate e) =
    [SetStatus Terminating; SignalExecution;
     InPinFlush (InPin 1); InPinFlush (InPin 2);
     OutPinFlush (OutPin 7); OutPinFlush (OutPin 8); OutPinFlush (OutPin 9);
     ThreadCancel; WorkerCancelled; ThreadJoin].
Proof.
  cbv zeta.
  match goal with |- status ?e = _ /\ _ => set (e0 := e) end.
  assert (H : status e0 = Executing) by reflexivity.
  destruct (Terminate_order_of_effects e0 H)
    as (Hw & _ & _ & _ & _ & _ & evs & _ & _ & _ & Hf & _).
  split; [exact H|]. split; [exact Hw|]. split; [reflexivity|].
  split; [reflexivity|]. split; [exact Hf|reflexivity].
Defined.

(** ** Terminate: the status it leaves behind *)

(** When a wake is pending ([canSleep] is clear) and the worker is running
    [DoWork], with logging off, the worker gets past the gate, finds the loop
    condition false and runs line 191: the status is [WaitingForExecute]
    once [Terminate] has returned. *)
Lemma Terminate_with_wake_pending (e : Element) :
  logEnabled e = false ->
  status e = Executing -> canSleep e = false -> waitMutex e = None ->
  worker (thread e) = L170 ->
  result (Terminate e) = Returns tt /\
  worker (thread (after (Terminate e))) = Finished /\
  status (after (Terminate e)) = WaitingForExecute.
Proof.
  intros HL Hs Hc Hm Hpc. rewrite (Terminate_accepted e Hs).
  cbn [result after]. rewrite Thread_Join_run.
  break_element e. subst.
  match goal with c : bool |- _ => destruct c end; vm_compute; auto.
Qed.

(** A worker parked on the sleep gate with no wake pending leaves the wait
    only by the forced stop, and then runs nothing more: as long as nobody
    calls [Wake], however the other threads are scheduled, line 191 is never
    run. *)
Lemma parked_worker_leaves_only_by_stop (e e' : Element) (tr : list event) :
  execution no_wake e tr e' ->
  canSleep e = true ->
  worker (thread e) = L179 \/ worker (thread e) = Cancelled ->
  (worker (thread e') = L179 \/ worker (thread e') = Cancelled) /\
  ~ In (SetStatus WaitingForExecute) tr.
Proof.
  induction 1 as [e|e e1 evs e2 tr Hs _ IH|e e1 e2 tr Hr Hpc _ IH];
    intros C Hat.
  - split; [exact Hat|intros []].
  - assert (Hstep : canSleep e1 = true /\ worker (thread e1) = Cancelled /\
                    evs = [WorkerCancelled]).
    { revert Hs. unfold worker_step. break_element e. subst.
      destruct Hat as [-> | ->]; [|discriminate].
      intros Hs. break_ifs Hs; try discriminate.
      inversion Hs; subst. auto. }
    destruct Hstep as (C1 & P1 & ->).
    destruct (IH C1 (or_intror P1)) as [Hat' Hno]. split; [exact Hat'|].
    intros [Hin|Hin]; [discriminate|tauto].
  - unfold no_wake in Hr. apply IH; [congruence|now rewrite Hpc].
Qed.

(** C5 (the code departs from it).  After a successful [Terminate] the
    status is to be [WaitingForExecute] wherever the worker stood.  With the
    worker parked on the sleep gate (line 179), or running [DoWork] (line
    170) and about to park, and no wake pending, the stop requested by line
    295 takes the worker at [pthread_cond_wait]: line 191 is never run,
    [Terminate] returns, and [Status()] is [Terminating].  From there neither
    [Execute] nor [Terminate] is accepted any more. *)
Theorem Terminate_with_worker_at_gate_leaves_Terminating (e : Element) :
  status e = Executing -> canSleep e = true -> waitMutex e = None ->
  worker (thread e) = L179 \/ worker (thread e) = L170 ->
  let r := Terminate e in
  result r = Returns tt /\
  worker (thread (after r)) = Cancelled /\
  result (Status (after r)) = Returns Terminating /\
  is_invalid_operation (result (Execute (after r))) = true /\
  is_invalid_operation (result (Terminate (after r))) = true.
Proof.
  intros Hs Hc Hm Hpc. cbv zeta.
  assert (H : result (Terminate e) = Returns tt /\
              worker (thread (after (Terminate e))) = Cancelled /\
              status (after (Terminate e)) = Terminating).
  { rewrite (Terminate_accepted e Hs).
    cbn [result after]. rewrite Thread_Join_run.
    break_element e. subst.
    destruct Hpc as [-> | ->];
      match goal with c : bool |- _ => destruct c end;
      vm_compute; auto. }
  destruct H as (Hr & Hw & Hst).
  repeat split; auto.
  - unfold Status, get. cbn [result]. now rewrite Hst.
  - rewrite Execute_rejected; [reflexivity|congruence].
  - rewrite Terminate_rejected; [reflexivity|congruence].
Qed.

(** The element of the failing run: constructed, executed, and its worker
    left to run until it parks on the sleep gate. *)
Lemma Terminate_with_worker_at_gate_leaves_Terminating_witness :
  let parked := fst (run_worker worker_bound (after (Execute new_Element))) in
  worker (thread parked) = L179 /\
  result (Status parked) = Returns Executing /\
  result (Terminate parked) = Returns tt /\
  result (Status (after (Terminate parked))) = Returns Terminating.
Proof.
  cbv zeta.
  set (parked := fst (run_worker worker_bound (after (Execute new_Element)))).
  assert (Hs : status parked = Executing) by reflexivity.
  assert (Hc : canSleep parked = true) by reflexivity.
  assert (Hm : waitMutex parked = None) by reflexivity.
  assert (Hpc : worker (thread parked) = L179 \/ worker (thread parked) = L170)
    by (left; reflexivity).
  destruct (Terminate_with_worker_at_gate_leaves_Terminating parked Hs Hc Hm Hpc)
    as (Hr & _ & Hst & _).
  split; [reflexivity|]. split; [reflexivity|]. split; [exact Hr|exact Hst].
Defined.

(** ** Wake *)

Lemma with_canSleep_twice (b : bool) (e : Element) :
  with_canSleep b (with_canSleep b e) = with_canSleep b e.
Proof. reflexivity. Qed.

Lemma Wake_times_run (n : nat) (e : Element) :
  waitMutex e = None ->
  result (Wake_times (S n) e) = Returns tt /\
  after (Wake_times (S n) e) = with_canSleep false e /\
  count is_Wake (effects (Wake_times (S n) e)) = S n.
Proof.
  revert e. induction n as [|n IH]; intros e M.
  - unfold Wake_times, bind, ret. rewrite (Wake_granted 0 e M).
    cbn [Z.eqb result after effects]. rewrite app_nil_r.
    unfold count, logged. destruct (logEnabled e); auto.
  - assert (M' : waitMutex (with_canSleep false e) = None) by exact M.
    destruct (IH _ M') as (Hr & Ha & Hc).
    change (Wake_times (S (S n))) with (bind (Wake 0) (fun _ => Wake_times (S n))).
    unfold bind at 1 2 3. rewrite (Wake_granted 0 e M).
    cbn [Z.eqb result after effects].
    rewrite Hr, Ha. cbn [result after effects].
    split; [reflexivity|]. split; [reflexivity|].
    unfold count in *. cbn [filter is_Wake].
    rewrite filter_app, length_app. cbn [List.length]. rewrite Hc.
    unfold logged. destruct (logEnabled e); reflexivity.
Qed.

(** Once the gate is open, the worker left to itself passes it at most once
    and begins at most one iteration of its loop before it is at rest again,
    wherever it stands. *)
Lemma open_gate_is_passed_once (e : Element) :
  waitMutex e = None -> canSleep e = false ->
  let tr := snd (run_worker worker_bound e) in
  (count is_gate_passed tr <=? 1)%nat = true /\
  (count is_iteration (since_gate_passed tr) <=? 1)%nat = true /\
  (count is_DoWork (since_gate_passed tr) <=? 1)%nat = true.
Proof.
  intros M C. all_cases e; try discriminate M; try discriminate C;
    vm_compute; auto.
Qed.

(** C6.  [n] calls of [Wake], [n >= 1], made while nobody holds the gate's
    mutex leave the element exactly as one call does, with the gate open
    ([canSleep] clear).  The worker then finds the gate open once: it skips
    at most one sleep and begins at most one further iteration, with at most
    one [DoWork], before it is at rest again, however large [n] is. *)
Theorem Wake_coalesces (n : nat) (e : Element) :
  (1 <= n)%nat -> waitMutex e = None ->
  let w := Wake_times n e in
  let tr := snd (run_worker worker_bound (after w)) in
  result w = Returns tt /\
  count is_Wake (effects w) = n /\
  after w = after (Wake 0 e) /\
  canSleep (after w) = false /\
  (count is_gate_passed tr <= 1)%nat /\
  (count is_iteration (since_gate_passed tr) <= 1)%nat /\
  (count is_DoWork (since_gate_passed tr) <= 1)%nat.
Proof.
  intros Hn M. cbv zeta. destruct n as [|n]; [lia|].
  destruct (Wake_times_run n e M) as (Hr & Ha & Hc).
  rewrite Hr, Ha, Hc, (Wake_granted 0 e M). cbn [Z.eqb after].
  assert (M' : waitMutex (with_canSleep false e) = None) by exact M.
  assert (C' : canSleep (with_canSleep false e) = false) by reflexivity.
  destruct (open_gate_is_passed_once _ M' C') as (H1 & H2 & H3).
  apply Nat.leb_le in H1, H2, H3. auto 10.
Qed.

(** Three calls of [Wake] on an element whose worker is parked in [Play]:
    one sleep is skipped and [DoWork] runs once. *)
Lemma Wake_coalesces_witness :
  let parked :=
    with_state Play
      (fst (run_worker worker_bound (after (Execute new_Element)))) in
  let w := Wake_times 3 parked in
  let tr := snd (run_worker worker_bound (after w)) in
  (1 <= 3)%nat /\ waitMutex parked = None /\
  worker (thread parked) = L179 /\
  after w = after (Wake 0 parked) /\
  count is_Wake (effects w) = 3%nat /\
  tr = [GateTest false; LoopTest Executing; StateTest Play; CallDoWork;
        GateTest true] /\
  (count is_DoWork (since_gate_passed tr) <= 1)%nat.
Proof.
  cbv zeta.
  set (parked := with_state Play
         (fst (run_worker worker_bound (after (Execute new_Element))))).
  assert (Hn : (1 <= 3)%nat) by lia.
  assert (M : waitMutex parked = None) by reflexivity.
  destruct (Wake_coalesces parked Hn M) as (_ & Hc & Ha & _ & _ & _ & Hd).
  split; [exact Hn|]. split; [exact M|]. split; [reflexivity|].
  split; [exact Ha|]. split; [exact Hc|]. split; [reflexivity|exact Hd].
Defined.

(** ** The loop of the worker *)

Lemma loop_discipline_step (e e' : Element) (evs tr : list event) :
  worker_step e = Some (e', evs) ->
  loop_discipline (phase_of (worker (thread e'))) tr = true ->
  loop_discipline (phase_of (worker (thread e))) (evs ++ tr) = true.
Proof.
  intros H. all_cases e; try discriminate H;
    vm_compute in H; inversion H; subst; clear H; intros D; exact D.
Qed.

Lemma loop_discipline_execution (e e' : Element) (tr : list event) :
  execution any_interference e tr e' ->
  loop_discipline (phase_of (worker (thread e))) tr = true.
Proof.
  induction 1 as [e|e e1 evs e2 tr Hs _ IH|e e1 e2 tr _ Hpc _ IH].
  - reflexivity.
  - eapply loop_discipline_step; eauto.
  - now rewrite <- Hpc.
Qed.

(** While nobody changes [state] from [Pause] or makes a lifecycle call, a
    worker inside the loop stays inside it and does not enter [DoWork]. *)
Lemma idling_step (e e' : Element) (evs : list event) :
  worker_step e = Some (e', evs) ->
  idling e -> idling e' /\ ~ In CallDoWork evs.
Proof.
  unfold idling. intros H (Hst & Hs & Hc & Hl & Hpc).
  all_cases e; try discriminate; try congruence;
    vm_compute in H; try discriminate H; inversion H; subst; clear H;
    (split; [repeat split; try reflexivity; discriminate
            |simpl; intuition discriminate]).
Qed.

Lemma idling_execution (e e' : Element) (tr : list event) :
  execution stays_paused e tr e' ->
  idling e -> idling e' /\ ~ In CallDoWork tr.
Proof.
  induction 1 as [e|e e1 evs e2 tr Hs _ IH|e e1 e2 tr [[Hst Hc] Hp] Hpc _ IH];
    intros I.
  - split; [exact I|intros []].
  - destruct (idling_step Hs I) as [I1 Hno].
    destruct (IH I1) as [I2 Hno2]. split; [exact I2|].
    intros Hin. apply in_app_or in Hin. tauto.
  - apply IH. unfold idling in *. rewrite Hpc, Hst, Hc. tauto.
Qed.

Lemma run_worker_execution (rely : Element -> Element -> Prop)
      (fuel : nat) (e : Element) :
  execution rely e (snd (run_worker fuel e)) (fst (run_worker fuel e)).
Proof.
  revert e. induction fuel as [|n IH]; intros e; simpl.
  - constructor.
  - destruct (worker_step e) as [[e1 evs]|] eqn:E; [|constructor].
    specialize (IH e1). destruct (run_worker n e1) as [e2 evs2]; simpl in *.
    eapply execution_worker; eauto.
Qed.

Lemma DoWork_entered_from_L170 (e e' : Element) (evs : list event) :
  worker_step e = Some (e', evs) ->
  (In CallDoWork evs -> worker (thread e) = L170) /\
  (worker (thread e') = L170 ->
   worker (thread e) = L168 /\ state e = Play).
Proof.
  unfold worker_step. break_element e. intros H.
  destruct l; try discriminate; run_step;
    try match goal with m : MediaState |- _ => destruct m; simpl in H end;
    break_ifs H; try discriminate; inversion H; subst; simpl;
    split; try tauto; try discriminate; intuition discriminate.
Qed.

Lemma paused_loop_iterates (e : Element) :
  idling e -> worker (thread e) = L179 -> waitMutex e = None ->
  let w := run_worker worker_bound (after (Wake 0 e)) in
  In (LoopTest Executing) (snd w) /\ ~ In CallDoWork (snd w) /\
  worker (thread (fst w)) = L179 /\ status (fst w) = Executing.
Proof.
  intros (Hst & Hs & Hc & _ & _) Hpc M. rewrite (Wake_granted 0 e M).
  cbn [Z.eqb after]. break_element e. subst.
  match goal with b : bool |- _ => destruct b end;
    vm_compute; intuition discriminate.
Qed.

(** C8.  In the loop of the worker [DoWork] is entered only from line 170,
    which is reached only from the test of line 168 having read [Play]; in
    every execution, whatever other threads do, the state is tested once per
    iteration and [DoWork] is entered at most once in an iteration, and only
    if that test read [Play].  While the play state stays [Pause] and no
    lifecycle call is made, the worker stays inside the loop with the status
    [Executing] and never enters [DoWork]; woken while parked, it goes
    round the loop once more, without [DoWork], and parks again. *)
Theorem DoWork_only_on_Play_once_per_iteration
        (e e' : Element) (tr : list event) :
  (forall evs, worker_step e = Some (e', evs) ->
     (In CallDoWork evs -> worker (thread e) = L170) /\
     (worker (thread e') = L170 ->
      worker (thread e) = L168 /\ state e = Play)) /\
  (execution any_interference e tr e' ->
     loop_discipline (phase_of (worker (thread e))) tr = true) /\
  (execution stays_paused e tr e' -> idling e ->
     ~ In CallDoWork tr /\ state e' = Pause /\ status e' = Executing /\
     in_loop (worker (thread e')) = true) /\
  (idling e -> worker (thread e) = L179 -> waitMutex e = None ->
     let w := run_worker worker_bound (after (Wake 0 e)) in
     In (LoopTest Executing) (snd w) /\ ~ In CallDoWork (snd w) /\
     worker (thread (fst w)) = L179 /\ status (fst w) = Executing).
Proof.
  split; [intros evs; apply DoWork_entered_from_L170|].
  split; [apply loop_discipline_execution|].
  split; [|apply paused_loop_iterates].
  intros Hex I. destruct (idling_execution Hex I) as [(? & ? & ? & ? & ?) ?].
  auto.
Qed.

(** An element executed, set to [Play], then to [Pause] and woken again:
    [DoWork] is entered once, in the iteration whose test read [Play]. *)
Lemma DoWork_only_on_Play_once_per_iteration_witness :
  let parked := fst (run_worker worker_bound (after (Execute new_Element))) in
  let playing := run_worker worker_bound (after (SetState 0 Play parked)) in
  let paused := run_worker worker_bound (after (SetState 0 Pause (fst playing))) in
  snd playing ++ snd paused =
    [GateTest false; LoopTest Executing; StateTest Play; CallDoWork;
     GateTest true;
     GateTest false; LoopTest Executing; StateTest Pause; GateTest true] /\
  loop_discipline NotDue (snd playing ++ snd paused) = true /\
  count is_DoWork (snd playing ++ snd paused) = 1%nat.
Proof.
  cbv zeta.
  set (parked := fst (run_worker worker_bound (after (Execute new_Element)))).
  set (start := after (SetState 0 Play parked)).
  set (playing := run_worker worker_bound start).
  set (middle := after (SetState 0 Pause (fst playing))).
  set (paused := run_worker worker_bound middle).
  assert (Hex : execution any_interference start
                  (snd playing ++ snd paused) (fst paused)).
  { assert (H1 : execution any_interference middle (snd paused) (fst paused))
      by apply run_worker_execution.
    assert (H2 : execution any_interference (fst playing) (snd paused)
                   (fst paused)).
    { apply (@execution_other any_interference (fst playing) middle
               (fst paused) (snd paused) I eq_refl H1). }
    assert (H3 : forall a tr1 b, execution any_interference a tr1 b ->
                 forall tr2 c, execution any_interference b tr2 c ->
                 execution any_interference a (tr1 ++ tr2) c).
    { induction 1; intros tr2 c Hc; simpl; auto.
      - rewrite <- app_assoc. eapply execution_worker; eauto.
      - eapply execution_other; eauto. }
    eapply H3; [apply run_worker_execution|exact H2]. }
  destruct (DoWork_only_on_Play_once_per_iteration start (fst paused)
              (snd playing ++ snd paused)) as (_ & Hd & _).
  split; [reflexivity|]. split; [exact (Hd Hex)|reflexivity].
Defined.

(** * Further properties of the code *)

(** ** PinCollection: adding, counting, looking up, clearing *)

Section PinCollectionUse.

Variable T : Type.
Implicit Types (c : PinCollection.t T) (l : list T) (p : T).

Lemma size_nonneg c : 0 <= PinCollection.size c.
Proof. unfold PinCollection.size. lia. Qed.

Lemma size_Add p c :
  PinCollection.size (PinCollection.Add p c) = PinCollection.size c + 1.
Proof.
  unfold PinCollection.size, PinCollection.Add. simpl.
  rewrite length_app. simpl. lia.
Qed.

Lemma Item_guard_passed c (i : Z) :
  is_int i -> 0 <= i <= PinCollection.size c ->
  PinCollection.Item c i = PinCollection.subscript c i.
Proof.
  intros Hint [H0 Hle]. unfold PinCollection.Item.
  rewrite (size_t_of_int_nonneg H0 Hint).
  replace (i <? 0) with false by (symmetry; apply Z.ltb_ge; lia).
  replace (i >? PinCollection.size c) with false
    by (symmetry; rewrite Z.gtb_ltb; apply Z.ltb_ge; lia).
  reflexivity.
Qed.

(** X1.  The handles added one after the other are found again by [Item] at
    the place of their call: the [i]-th added handle is [Item(i)]. *)
Theorem Item_returns_pins_in_insertion_order l (i : nat) p :
  Z.of_nat (List.length l) <= INT_MAX ->
  nth_error l i = Some p ->
  PinCollection.Item (PinCollection.of_list l) (Z.of_nat i) = Returns p.
Proof.
  intros Hsz Hnth.
  assert (Hlt : (i < List.length l)%nat)
    by (apply nth_error_Some; congruence).
  rewrite Item_guard_passed.
  - unfold PinCollection.subscript. rewrite of_list_pins, Nat2Z.id.
    now rewrite Hnth.
  - unfold is_int, INT_MIN, INT_MAX in *. lia.
  - unfold PinCollection.size. rewrite of_list_pins. lia.
Qed.

(** X2.  [Add] puts the handle at the index that [Count] gave before the
    call, raises [Count] by one, and leaves what [Item] returns at every
    earlier index as it was. *)
Theorem Add_appends c p :
  PinCollection.size c < INT_MAX ->
  PinCollection.Item (PinCollection.Add p c) (PinCollection.Count c)
    = Returns p /\
  PinCollection.Count (PinCollection.Add p c) = PinCollection.Count c + 1 /\
  (forall i, 0 <= i < PinCollection.Count c ->
     PinCollection.Item (PinCollection.Add p c) i = PinCollection.Item c i).
Proof.
  intros Hsz. pose proof (size_nonneg c) as H0.
  assert (Hc : PinCollection.Count c = PinCollection.size c)
    by (apply Count_small; lia).
  assert (Hc' : PinCollection.Count (PinCollection.Add p c)
                = PinCollection.size c + 1)
    by (rewrite Count_small; rewrite size_Add; lia).
  rewrite Hc, Hc'. split; [|split; [reflexivity|]].
  - rewrite Item_guard_passed.
    + unfold PinCollection.subscript, PinCollection.size, PinCollection.Add.
      simpl. rewrite Nat2Z.id, nth_error_app2, Nat.sub_diag by lia.
      reflexivity.
    + unfold is_int, INT_MIN, INT_MAX in *. lia.
    + rewrite size_Add. lia.
  - intros i Hi.
    assert (Hint : is_int i) by (unfold is_int, INT_MIN, INT_MAX in *; lia).
    rewrite !Item_guard_passed; try exact Hint; try (rewrite ?size_Add; lia).
    unfold PinCollection.subscript, PinCollection.Add. simpl.
    rewrite nth_error_app1; [reflexivity|].
    unfold PinCollection.size in *. lia.
Qed.

(** X3.  For an [int] index, [Item] throws exactly when the index is
    negative or greater than [Count], and what it throws is always the
    out-of-range exception. *)
Theorem Item_throws_exactly_outside c (i : Z) :
  is_int i -> PinCollection.size c <= INT_MAX ->
  (PinCollection.Item c i = Throws ArgumentOutOfRangeException <->
   i < 0 \/ PinCollection.Count c < i) /\
  (forall x, PinCollection.Item c i = Throws x ->
             x = ArgumentOutOfRangeException).
Proof.
  intros Hint Hsz. pose proof (size_nonneg c) as H0.
  rewrite (Count_small _ Hsz).
  destruct (Z_lt_dec i 0) as [Hneg|Hpos].
  { rewrite (Item_negative _ Hneg). split; [tauto|congruence]. }
  destruct (Z_lt_dec (PinCollection.size c) i) as [Hbig|Hin].
  { rewrite (Item_beyond _ Hint Hbig). split; [tauto|congruence]. }
  rewrite Item_guard_passed by (auto; lia).
  unfold PinCollection.subscript.
  destruct (nth_error (PinCollection.pins c) (Z.to_nat i));
    (split; [split; [discriminate|lia]|discriminate]).
Qed.

(** X4.  [Clear] empties the collection whatever it held: [Count] is zero,
    [Flush] reaches no pin, and [Item] throws the out-of-range exception for
    every [int] index other than 0.  (Index 0 is then equal to [Count] and is
    let through by the guard of line 63.) *)
Theorem Clear_empties c :
  PinCollection.Count (PinCollection.Clear c) = 0 /\
  (forall (E : Type) (flush : T -> E),
     PinCollection.Flush flush (PinCollection.Clear c) = []) /\
  (forall i, is_int i -> i <> 0 ->
     PinCollection.Item (PinCollection.Clear c) i
     = Throws ArgumentOutOfRangeException).
Proof.
  split; [reflexivity|]. split; [reflexivity|].
  intros i Hint Hi.
  destruct (Z_lt_dec i 0) as [Hneg|Hpos].
  - now apply Item_negative.
  - apply Item_beyond; [exact Hint|].
    unfold PinCollection.size, PinCollection.Clear. simpl. lia.
Qed.

End PinCollectionUse.

Lemma Item_returns_pins_in_insertion_order_witness :
  let l := [OutPin 4; OutPin 2; OutPin 9] in
  Z.of_nat (List.length l) <= INT_MAX /\
  nth_error l 1 = Some (OutPin 2) /\
  PinCollection.Item (PinCollection.of_list l) 1 = Returns (OutPin 2).
Proof.
  cbv zeta.
  assert (Hsz : Z.of_nat (List.length [OutPin 4; OutPin 2; OutPin 9])
                <= INT_MAX) by (vm_compute; discriminate).
  split; [exact Hsz|]. split; [reflexivity|].
  exact (Item_returns_pins_in_insertion_order
           [OutPin 4; OutPin 2; OutPin 9] 1 Hsz eq_refl).
Defined.

Lemma Add_appends_witness :
  let c := PinCollection.of_list [InPin 5; InPin 6] in
  PinCollection.size c < INT_MAX /\
  PinCollection.Count c = 2 /\
  PinCollection.Item (PinCollection.Add (InPin 7) c) 2 = Returns (InPin 7) /\
  PinCollection.Count (PinCollection.Add (InPin 7) c) = 3.
Proof.
  cbv zeta.
  assert (Hsz : PinCollection.size (PinCollection.of_list [InPin 5; InPin 6])
                < INT_MAX) by (vm_compute; reflexivity).
  destruct (Add_appends (PinCollection.of_list [InPin 5; InPin 6])
              (InPin 7) Hsz) as (H1 & H2 & _).
  split; [exact Hsz|]. split; [reflexivity|]. split; [exact H1|exact H2].
Defined.

Lemma Item_throws_exactly_outside_witness :
  let c := PinCollection.of_list [InPin 1; InPin 2] in
  is_int 3 /\ PinCollection.size c <= INT_MAX /\
  PinCollection.Item c 3 = Throws ArgumentOutOfRangeException.
Proof.
  cbv zeta.
  assert (Hint : is_int 3) by (vm_compute; split; discriminate).
  assert (Hsz : PinCollection.size (PinCollection.of_list [InPin 1; InPin 2])
                <= INT_MAX) by (vm_compute; discriminate).
  destruct (Item_throws_exactly_outside
              (PinCollection.of_list [InPin 1; InPin 2]) Hint Hsz) as [H _].
  split; [exact Hint|]. split; [exact Hsz|].
  apply H. right. vm_compute. reflexivity.
Defined.

(** ** Element: pins and Flush *)

Lemma Flush_run (e : Element) :
  Flush e =
  Run (Returns tt) e
      (map InPinFlush (PinCollection.pins (inputs e)) ++
       map OutPinFlush (PinCollection.pins (outputs e)) ++
       logged e "Element (%s) Flush exited.\n").
Proof. reflexivity. Qed.

Lemma pin_flushes_of_Flush (e : Element) :
  filter is_pin_flush (effects (Flush e)) =
  map InPinFlush (PinCollection.pins (inputs e)) ++
  map OutPinFlush (PinCollection.pins (outputs e)).
Proof.
  rewrite Flush_run. cbn [effects]. rewrite !filter_app.
  rewrite filter_pin_flush_map_in, filter_pin_flush_map_out,
    filter_pin_flush_logged.
  now rewrite app_nil_r.
Qed.

(** X5.  [Flush] returns with the element unchanged, having flushed the
    input pins and then the output pins, each once and in the order of
    their addition.  A pin added by [AddInputPin] or [AddOutputPin] is
    flushed last of its collection, and after [ClearInputPins] or
    [ClearOutputPins] no pin of that collection is flushed. *)
Theorem Flush_reaches_the_pins_added (e : Element) :
  result (Flush e) = Returns tt /\ after (Flush e) = e /\
  filter is_pin_flush (effects (Flush e)) =
    map InPinFlush (PinCollection.pins (inputs e)) ++
    map OutPinFlush (PinCollection.pins (outputs e)) /\
  (forall p,
     filter is_pin_flush (effects (Flush (after (AddInputPin p e)))) =
       map InPinFlush (PinCollection.pins (inputs e)) ++
       InPinFlush p ::
       map OutPinFlush (PinCollection.pins (outputs e))) /\
  (forall q,
     filter is_pin_flush (effects (Flush (after (AddOutputPin q e)))) =
       map InPinFlush (PinCollection.pins (inputs e)) ++
       map OutPinFlush (PinCollection.pins (outputs e)) ++
       [OutPinFlush q]) /\
  filter is_pin_flush (effects (Flush (after (ClearInputPins e)))) =
    map OutPinFlush (PinCollection.pins (outputs e)) /\
  filter is_pin_flush (effects (Flush (after (ClearOutputPins e)))) =
    map InPinFlush (PinCollection.pins (inputs e)).
Proof.
  split; [reflexivity|]. split; [reflexivity|].
  split; [apply pin_flushes_of_Flush|].
  split; [|split; [|split]].
  - intros p. rewrite pin_flushes_of_Flush. cbn.
    rewrite map_app, <- app_assoc. reflexivity.
  - intros q. rewrite pin_flushes_of_Flush. cbn.
    rewrite map_app. reflexivity.
  - rewrite pin_flushes_of_Flush. reflexivity.
  - rewrite pin_flushes_of_Flush. cbn. now rewrite app_nil_r.
Qed.

(** ** Element: the worker from start to rest *)

Lemma rest_is_resting (e : Element) :
  worker_step e = None -> resting e = true.
Proof.
  unfold worker_step, resting. break_element e.
  destruct l; try reflexivity; run_step;
    repeat match goal with
           | |- context [match ?o with Some _ => _ | None => _ end] =>
               destruct o; simpl
           | |- context [if ?b then _ else _] => destruct b; simpl
           end; auto; discriminate.
Qed.

(** X6.  Left to itself the worker never spins: from wherever it stands it
    stops moving within [worker_bound] statements, and where it stops it has
    not been started, has finished or been stopped, waits for [waitMutex] at
    line 175, or is inside [pthread_cond_wait] at line 179. *)
Theorem worker_never_spins (e : Element) :
  let e' := fst (run_worker worker_bound e) in
  worker_step e' = None /\ resting e' = true /\
  (forall fuel, (worker_bound <= fuel)%nat ->
     worker_step (fst (run_worker fuel e)) = None).
Proof.
  cbv zeta. pose proof (worker_comes_to_rest e) as H.
  split; [exact H|]. split; [apply rest_is_resting, H|].
  intros fuel Hf. apply run_worker_rests.
  pose proof (rank_bounded e). lia.
Qed.

(** X7.  After an accepted [Execute], with [waitMutex] free, the worker left
    to itself writes [Initializing], calls [Initialize] once, writes
    [Executing] and comes to rest parked on the sleep gate at line 179, the
    gate closed again and the mutex free.  On the way [DoWork] ran once if
    the element was in [Play] (twice if a wake was pending as well) and not
    at all in [Pause]. *)
Theorem worker_start_up (e : Element) :
  status e = WaitingForExecute -> waitMutex e = None ->
  let w := run_worker worker_bound (after (Execute e)) in
  worker (thread (fst w)) = L179 /\
  status (fst w) = Executing /\
  canSleep (fst w) = true /\
  waitMutex (fst w) = None /\
  milestones (snd w) =
    [SetStatus Initializing; CallInitialize; SetStatus Executing] /\
  count is_DoWork (snd w) =
    match state e, canSleep e with
    | Pause, _ => 0
    | Play, true => 1
    | Play, false => 2
    end%nat.
Proof.
  intros Hs M. destruct (Execute_accepted e Hs) as (_ & Ha & _).
  cbv zeta. rewrite Ha. clear Ha.
  destruct e as [[l c] m i o s w cs n le].
  cbn [status waitMutex] in Hs, M. subst.
  destruct c, m, cs, le; vm_compute; repeat split.
Qed.

Lemma worker_start_up_witness :
  let e := with_state Play new_Element in
  let w := run_worker worker_bound (after (Execute e)) in
  status e = WaitingForExecute /\ waitMutex e = None /\
  worker (thread (fst w)) = L179 /\
  status (fst w) = Executing /\
  count is_DoWork (snd w) = 1%nat.
Proof.
  cbv zeta.
  assert (Hs : status (with_state Play new_Element) = WaitingForExecute)
    by reflexivity.
  assert (M : waitMutex (with_state Play new_Element) = None) by reflexivity.
  destruct (worker_start_up (with_state Play new_Element) Hs M)
    as (H1 & H2 & _ & _ & _ & H3).
  split; [exact Hs|]. split; [exact M|]. split; [exact H1|].
  split; [exact H2|exact H3].
Defined.

(** X8.  A call of [Wake] on an element whose worker is parked on the gate
    makes the worker go round its loop exactly once: it finds the gate open
    once, closes it again, tests the loop condition and the play state, runs
    [DoWork] once in [Play] and not at all in [Pause], and parks again;
    nothing more happens until the next [Wake]. *)
Theorem Wake_runs_one_iteration (e : Element) :
  worker (thread e) = L179 -> status e = Executing -> canSleep e = true ->
  waitMutex e = None -> cancelRequested (thread e) = false ->
  let w := run_worker worker_bound (after (Wake 0 e)) in
  quiet (snd w) =
    (GateTest false :: LoopTest Executing :: StateTest (state e) ::
     match state e with Play => [CallDoWork] | Pause => [] end) ++
    [GateTest true] /\
  worker (thread (fst w)) = L179 /\ canSleep (fst w) = true /\
  waitMutex (fst w) = None /\ status (fst w) = Executing /\
  state (fst w) = state e /\
  worker_step (fst w) = None.
Proof.
  intros Hpc Hs C M Hc. cbv zeta. rewrite (Wake_granted 0 e M).
  cbn [Z.eqb after]. break_element e. subst.
  repeat match goal with
         | b : bool |- _ => destruct b
         | m : MediaState |- _ => destruct m
         end; vm_compute; auto 10.
Qed.

Lemma Wake_runs_one_iteration_witness :
  let e :=
    with_state Play
      (fst (run_worker worker_bound (after (Execute new_Element)))) in
  let w := run_worker worker_bound (after (Wake 0 e)) in
  worker (thread e) = L179 /\ status e = Executing /\
  quiet (snd w) =
    [GateTest false; LoopTest Executing; StateTest Play; CallDoWork;
     GateTest true] /\
  worker (thread (fst w)) = L179.
Proof.
  cbv zeta.
  set (e := with_state Play
         (fst (run_worker worker_bound (after (Execute new_Element))))).
  destruct (@Wake_runs_one_iteration e eq_refl eq_refl eq_refl eq_refl eq_refl)
    as (H1 & H2 & _).
  split; [reflexivity|]. split; [reflexivity|]. split; [exact H1|exact H2].
Defined.

(** ** Element: what a failed Wake leaves behind *)

(** X9.  The throw of line 279 skips the unlock of line 282, so a [Wake]
    that failed leaves [waitMutex] locked for good: every later [Wake]
    waits for it and never returns, a later [SetState] to another value
    stores the value and then waits likewise, and a worker that stands at the
    lock of line 175 or inside the wait of line 179 cannot move any more. *)
Theorem failed_Wake_locks_the_gate (rc : Z) (e : Element) :
  rc <> 0 -> waitMutex e = None ->
  let e' := after (Wake rc e) in
  (forall rc', result (Wake rc' e') = Blocks /\ after (Wake rc' e') = e') /\
  (forall rc' v, v <> state e' ->
     result (SetState rc' v e') = Blocks /\
     state (after (SetState rc' v e')) = v) /\
  (worker (thread e') = L175 \/ worker (thread e') = L179 ->
   worker_step e' = None).
Proof.
  intros Hrc M. cbv zeta. rewrite (Wake_granted rc e M).
  apply Z.eqb_neq in Hrc. rewrite Hrc. cbn [after].
  set (e' := with_waitMutex (Some Caller) (with_canSleep false e)).
  assert (M' : waitMutex e' = Some Caller) by reflexivity.
  split; [|split].
  - intros rc'. now rewrite (Wake_refused rc' e' M').
  - intros rc' v Hv.
    assert (Hv' : state e' <> v) by congruence.
    rewrite (SetState_changes rc' e' Hv'). cbv zeta.
    assert (M'' : waitMutex (with_state v e') = Some Caller) by reflexivity.
    rewrite (Wake_refused rc' (with_state v e') M''). auto.
  - unfold worker_step. intros [H|H]; rewrite H; reflexivity.
Qed.

Lemma failed_Wake_locks_the_gate_witness :
  let e := fst (run_worker worker_bound (after (Execute new_Element))) in
  let e' := after (Wake 5 e) in
  5 <> 0 /\ waitMutex e = None /\
  result (Wake 0 e') = Blocks /\
  result (SetState 0 Play e') = Blocks /\
  state (after (SetState 0 Play e')) = Play /\
  worker_step e' = None.
Proof.
  cbv zeta.
  set (e := fst (run_worker worker_bound (after (Execute new_Element)))).
  assert (Hrc : 5 <> 0) by discriminate.
  assert (M : waitMutex e = None) by reflexivity.
  destruct (failed_Wake_locks_the_gate e Hrc M) as (H1 & H2 & H3).
  split; [exact Hrc|]. split; [exact M|].
  split; [exact (proj1 (H1 0))|].
  assert (Hv : Play <> state (after (Wake 5 e))) by discriminate.
  split; [exact (proj1 (H2 0 Play Hv))|].
  split; [exact (proj2 (H2 0 Play Hv))|].
  apply H3. right. reflexivity.
Defined.

(** X10.  [ChangeState] stores the new play state before it calls [Wake]
    and nothing puts the old one back: when the broadcast fails, [SetState]
    throws the synchronization error and the element is left in the new
    state, so that the same [SetState] made again finds nothing to change,
    returns normally and wakes nobody. *)
Theorem SetState_is_not_rolled_back (rc : Z) (v : MediaState) (e : Element) :
  rc <> 0 -> waitMutex e = None -> state e <> v ->
  let r := SetState rc v e in
  result r = Throws (Exception "Element::Wake - pthread_cond_broadcast failed.") /\
  state (after r) = v /\
  canSleep (after r) = false /\
  (forall rc', SetState rc' v (after r) = Run (Returns tt) (after r) []).
Proof.
  intros Hrc M Hv. cbv zeta. rewrite (SetState_changes rc e Hv). cbv zeta.
  assert (M' : waitMutex (with_state v e) = None) by exact M.
  rewrite (Wake_granted rc (with_state v e) M').
  apply Z.eqb_neq in Hrc. rewrite Hrc. cbn [result after].
  split; [reflexivity|]. split; [reflexivity|]. split; [reflexivity|].
  intros rc'. unfold SetState, bind, get. cbn [result after effects state
    with_waitMutex with_canSleep with_state].
  now rewrite MediaState_eqb_refl.
Qed.

Lemma SetState_is_not_rolled_back_witness :
  let r := SetState 1 Play new_Element in
  1 <> 0 /\ waitMutex new_Element = None /\ state new_Element <> Play /\
  result r = Throws (Exception "Element::Wake - pthread_cond_broadcast failed.") /\
  state (after r) = Play /\
  result (SetState 1 Play (after r)) = Returns tt.
Proof.
  cbv zeta.
  assert (Hrc : 1 <> 0) by discriminate.
  assert (M : waitMutex new_Element = None) by reflexivity.
  assert (Hv : state new_Element <> Play) by discriminate.
  destruct (SetState_is_not_rolled_back new_Element Hrc M Hv)
    as (H1 & H2 & _ & H4).
  split; [exact Hrc|]. split; [exact M|]. split; [exact Hv|].
  split; [exact H1|]. split; [exact H2|].
  now rewrite (H4 1).
Defined.

(** ** Element: the order of the lifecycle *)

Lemma starts_nil (p l : list event) : starts p [] = true -> starts p l = true.
Proof. destruct p; [reflexivity|discriminate]. Qed.

Lemma milestones_app (a b : list event) :
  milestones (a ++ b) = milestones a ++ milestones b.
Proof. apply filter_app. Qed.

Lemma milestones_step (e e' : Element) (evs p : list event) :
  worker_step e = Some (e', evs) ->
  starts p (milestones_ahead (worker (thread e'))) = true ->
  starts (milestones evs ++ p) (milestones_ahead (worker (thread e))) = true.
Proof.
  unfold worker_step. break_element e. intros H.
  destruct l; try discriminate; run_step; break_ifs H;
    try discriminate; inversion H; subst; clear H; simpl; intros D;
    try exact D; try (apply starts_nil; exact D);
    destruct p; simpl in *; try discriminate; auto.
Qed.

(** X11.  In every execution of one run of the worker, whatever the other
    threads do, the worker's status writes and its call of [Initialize] come
    in one order and at most once each: [Initializing], then [Initialize],
    then [Executing], then [WaitingForExecute]; a worker that is further on
    has only the rest of that sequence before it. *)
Theorem lifecycle_order (e e' : Element) (tr : list event) :
  execution any_interference e tr e' ->
  starts (milestones tr) (milestones_ahead (worker (thread e))) = true.
Proof.
  induction 1 as [e|e e1 evs e2 tr Hs _ IH|e e1 e2 tr _ Hpc _ IH].
  - reflexivity.
  - rewrite milestones_app. eapply milestones_step; eauto.
  - now rewrite <- Hpc.
Qed.

Lemma lifecycle_order_witness :
  let e := after (Execute new_Element) in
  let w := run_worker worker_bound e in
  execution any_interference e (snd w) (fst w) /\
  milestones (snd w) =
    [SetStatus Initializing; CallInitialize; SetStatus Executing] /\
  starts (milestones (snd w))
    [SetStatus Initializing; CallInitialize; SetStatus Executing;
     SetStatus WaitingForExecute] = true.
Proof.
  cbv zeta.
  set (e := after (Execute new_Element)).
  assert (Hex : execution any_interference e
                  (snd (run_worker worker_bound e))
                  (fst (run_worker worker_bound e)))
    by apply run_worker_execution.
  split; [exact Hex|]. split; [reflexivity|].
  exact (lifecycle_order Hex).
Defined.

Lemma looping_step (e e' : Element) (evs : list event) :
  worker_step e = Some (e', evs) ->
  looping e -> looping e' /\ milestones evs = [].
Proof.
  unfold worker_step, looping. break_element e. intros H (Hl & Hs & Hc).
  subst. destruct l; try discriminate; run_step; break_ifs H;
    try discriminate; inversion H; subst; auto.
Qed.

Lemma looping_execution (e e' : Element) (tr : list event) :
  execution no_lifecycle_call e tr e' ->
  looping e -> looping e' /\ milestones tr = [].
Proof.
  induction 1 as [e|e e1 evs e2 tr Hs _ IH|e e1 e2 tr [Hst Hc] Hpc _ IH];
    intros L.
  - auto.
  - destruct (looping_step Hs L) as [L1 Hm].
    destruct (IH L1) as [L2 Hm2]. split; [exact L2|].
    now rewrite milestones_app, Hm, Hm2.
  - apply IH. unfold looping in *. rewrite Hpc, Hst, Hc. exact L.
Qed.

(** X12.  Only a lifecycle call ends the loop.  As long as no other thread
    writes [status] or requests a stop, a worker inside the loop of an
    [Executing] element stays inside it, in [Play] as in [Pause], whatever
    else the other threads do ([Wake], [SetState], ...): it never writes
    [status], never returns, and the status stays [Executing]. *)
Theorem loop_ends_only_by_lifecycle_call (e e' : Element) (tr : list event) :
  execution no_lifecycle_call e tr e' ->
  looping e ->
  in_loop (worker (thread e')) = true /\ status e' = Executing /\
  exited (worker (thread e')) = false /\
  (forall s, ~ In (SetStatus s) tr).
Proof.
  intros Hex L. destruct (looping_execution Hex L) as [(Hl & Hs & _) Hm].
  split; [exact Hl|]. split; [exact Hs|]. split.
  - destruct (worker (thread e')); try discriminate; reflexivity.
  - intros s Hin.
    assert (Hin' : In (SetStatus s) (milestones tr)).
    { unfold milestones. apply filter_In. split; [exact Hin|reflexivity]. }
    rewrite Hm in Hin'. destruct Hin'.
Qed.

Lemma loop_ends_only_by_lifecycle_call_witness :
  let parked := fst (run_worker worker_bound (after (Execute new_Element))) in
  let w := run_worker worker_bound (after (SetState 0 Play parked)) in
  looping (after (SetState 0 Play parked)) /\
  count is_DoWork (snd w) = 1%nat /\
  in_loop (worker (thread (fst w))) = true /\ status (fst w) = Executing.
Proof.
  cbv zeta.
  set (parked := fst (run_worker worker_bound (after (Execute new_Element)))).
  set (e := after (SetState 0 Play parked)).
  assert (L : looping e) by (repeat split).
  assert (Hex : execution no_lifecycle_call e
                  (snd (run_worker worker_bound e))
                  (fst (run_worker worker_bound e)))
    by apply run_worker_execution.
  destruct (loop_ends_only_by_lifecycle_call Hex L) as (H1 & H2 & _).
  split; [exact L|]. split; [reflexivity|]. split; [exact H1|exact H2].
Defined.

(** ** Element: waiting for an execution state *)

Lemma before_the_loop (e e1 : Element) (evs : list event) :
  worker_step e = Some (e1, evs) ->
  cancelRequested (thread e) = false ->
  worker (thread e) = L160 \/ worker (thread e) = L162 \/
  worker (thread e) = L163 \/ worker (thread e) = L165 ->
  looping e1 \/
  (~ In (SetStatus Executing) evs /\
   cancelRequested (thread e1) = false /\
   (worker (thread e1) = L160 \/ worker (thread e1) = L162 \/
    worker (thread e1) = L163 \/ worker (thread e1) = L165)).
Proof.
  unfold worker_step, looping. break_element e. intros H C Hat. subst.
  destruct Hat as [-> | [-> | [-> | ->]]]; run_step; break_ifs H;
    inversion H; subst; simpl;
    try (left; repeat split; reflexivity);
    right; (split; [intuition discriminate|]); auto 10.
Qed.

Lemma reaches_the_loop (e e' : Element) (tr : list event) :
  execution no_lifecycle_call e tr e' ->
  cancelRequested (thread e) = false ->
  worker (thread e) = L160 \/ worker (thread e) = L162 \/
  worker (thread e) = L163 \/ worker (thread e) = L165 ->
  In (SetStatus Executing) tr ->
  looping e'.
Proof.
  induction 1 as [e|e e1 evs e2 tr Hs Hex IH|e e1 e2 tr [_ Hc] Hpc _ IH];
    intros C Hat Hin.
  - destruct Hin.
  - destruct (@before_the_loop e e1 evs Hs C Hat) as [L|(Hno & C1 & Hat1)].
    + now destruct (looping_execution Hex L).
    + apply IH; auto. apply in_app_or in Hin. tauto.
  - apply IH; [congruence|now rewrite Hpc|exact Hin].
Qed.

(** X13.  [WaitForExecutionState] returns only on finding the status equal
    to the awaited one at a test.  After an accepted [Execute], once the
    worker has written [Executing] and for as long as no lifecycle call is
    made, a wait for [Executing] returns at once and changes nothing,
    whereas a wait for any other status, [Initializing] included, which the
    element has passed through, finds its test false at every later point
    and is never released. *)
Theorem WaitForExecutionState_after_Execute
        (e e' : Element) (tr : list event) :
  status e = WaitingForExecute ->
  execution no_lifecycle_call (after (Execute e)) tr e' ->
  In (SetStatus Executing) tr ->
  WaitForExecutionState Executing e' = Run (Returns tt) e' [] /\
  result (Status e') = Returns Executing /\
  (forall target, target <> Executing ->
     WaitForExecutionState target e' = Run Blocks e' []).
Proof.
  intros Hs Hex Hin. destruct (Execute_accepted e Hs) as (_ & Ha & _).
  assert (L : looping e').
  { eapply reaches_the_loop; [exact Hex| | |exact Hin];
      rewrite Ha; [reflexivity|now left]. }
  destruct L as (_ & Hst & _).
  unfold WaitForExecutionState, Status, get. rewrite Hst. cbn [result].
  split; [reflexivity|]. split; [reflexivity|].
  intros target Ht. destruct target; try reflexivity. contradiction.
Qed.

Lemma WaitForExecutionState_after_Execute_witness :
  let e := after (Execute new_Element) in
  let w := run_worker worker_bound e in
  status new_Element = WaitingForExecute /\
  In (SetStatus Executing) (snd w) /\
  result (WaitForExecutionState Executing (fst w)) = Returns tt /\
  result (WaitForExecutionState Initializing (fst w)) = Blocks.
Proof.
  cbv zeta.
  set (e := after (Execute new_Element)).
  assert (Hs : status new_Element = WaitingForExecute) by reflexivity.
  assert (Hex : execution no_lifecycle_call e
                  (snd (run_worker worker_bound e))
                  (fst (run_worker worker_bound e)))
    by apply run_worker_execution.
  assert (Hin : In (SetStatus Executing) (snd (run_worker worker_bound e)))
    by (vm_compute; tauto).
  destruct (WaitForExecutionState_after_Execute new_Element Hs Hex Hin)
    as (H1 & _ & H3).
  split; [exact Hs|]. split; [exact Hin|].
  split; [now rewrite H1|].
  rewrite H3; [reflexivity|discriminate].
Defined.

(** ** Element: Terminate and the status it can leave *)

(** X14.  With logging off, [pthread_cond_wait] is the only place where the
    worker can be stopped.  When [Terminate] then returns on an element whose
    worker was inside its loop, the worker has either run to its end, and
    the status is [WaitingForExecute], or been stopped on the sleep gate,
    and the status is [Terminating]; the status is never left at
    [Executing] or [Initializing]. *)
Theorem Terminate_leaves_one_of_two_statuses (e : Element) :
  logEnabled e = false ->
  status e = Executing -> in_loop (worker (thread e)) = true ->
  result (Terminate e) = Returns tt ->
  (worker (thread (after (Terminate e))) = Finished /\
   status (after (Terminate e)) = WaitingForExecute) \/
  (worker (thread (after (Terminate e))) = Cancelled /\
   status (after (Terminate e)) = Terminating).
Proof.
  intros HL Hs Hl. rewrite (Terminate_accepted e Hs). cbn [result after].
  rewrite Thread_Join_run. revert HL Hs Hl.
  all_cases e; intros HL Hs Hl;
    try discriminate HL; try discriminate Hs; try discriminate Hl;
    vm_compute; intros Hr; try discriminate Hr; auto.
Qed.

Lemma Terminate_leaves_one_of_two_statuses_witness :
  let e :=
    at_pc L186 (fst (run_worker worker_bound (after (Execute new_Element)))) in
  logEnabled e = false /\
  status e = Executing /\ in_loop (worker (thread e)) = true /\
  result (Terminate e) = Returns tt /\
  status (after (Terminate e)) = WaitingForExecute.
Proof.
  cbv zeta.
  set (e := at_pc L186
         (fst (run_worker worker_bound (after (Execute new_Element))))).
  assert (HL : logEnabled e = false) by reflexivity.
  assert (Hs : status e = Executing) by reflexivity.
  assert (Hl : in_loop (worker (thread e)) = true) by reflexivity.
  assert (Hr : result (Terminate e) = Returns tt) by reflexivity.
  destruct (Terminate_leaves_one_of_two_statuses e HL Hs Hl Hr)
    as [[_ H]|[H _]].
  - split; [exact HL|]. split; [exact Hs|]. split; [exact Hl|].
    split; [exact Hr|exact H].
  - exfalso. revert H. vm_compute. discriminate.
Defined.

(** ** Element: what the worker touches *)

(** X16.  The worker writes [status], [canSleep] and [waitMutex] and no
    other field: however long it runs, the play state, the name, both pin
    collections, the log flag and the stop request are as it found them, and
    it calls neither a pin nor the thread. *)
Theorem worker_leaves_the_other_fields (fuel : nat) (e : Element) :
  let w := run_worker fuel e in
  state (fst w) = state e /\ name (fst w) = name e /\
  inputs (fst w) = inputs e /\ outputs (fst w) = outputs e /\
  logEnabled (fst w) = logEnabled e /\
  cancelRequested (thread (fst w)) = cancelRequested (thread e) /\
  filter is_pin_flush (snd w) = [] /\
  ~ In ThreadStart (snd w) /\ ~ In ThreadCancel (snd w) /\
  ~ In ThreadJoin (snd w).
Proof.
  cbv zeta. pose proof (run_worker_frame fuel e) as F. cbv zeta in F.
  pose proof (run_worker_events fuel e) as Hev.
  destruct F as (F1 & F2 & F3 & F4 & F5 & F6).
  destruct (by_worker_no_Cancel _ Hev) as [Hc Hj].
  repeat split; auto.
  - now apply by_worker_no_pin_flush.
  - intros Hin. rewrite forallb_forall in Hev.
    specialize (Hev _ Hin). discriminate.
Qed.

(** ** Element: the mutex of the sleep gate *)

Lemma mutex_in_order_step (e e' : Element) (evs : list event) :
  worker_step e = Some (e', evs) ->
  mutex_in_order e -> mutex_in_order e'.
Proof.
  unfold worker_step, mutex_in_order. break_element e. intros H [C M].
  subst. destruct l; try discriminate; simpl in *; subst; run_step;
    break_ifs H; try discriminate; inversion H; subst; simpl; auto.
Qed.

Lemma mutex_in_order_execution (e e' : Element) (tr : list event) :
  execution mutex_respected e tr e' ->
  mutex_in_order e -> mutex_in_order e'.
Proof.
  induction 1 as [e|e e1 evs e2 tr Hs _ IH|e e1 e2 tr [Hm Hc] Hpc _ IH];
    intros I; auto.
  - apply IH. eapply mutex_in_order_step; eauto.
  - apply IH. unfold mutex_in_order in *. now rewrite Hpc, Hm, Hc.
Qed.

(** X17.  The worker holds [waitMutex] from line 177 to line 184 only and
    gives it up while it waits at line 179.  So, as long as the other
    threads give the mutex back and request no stop, the mutex is free
    whenever the worker is at rest, and a [Wake] made then is granted: it
    returns, opens the gate and leaves the mutex free again. *)
Theorem Wake_is_granted_at_rest (e e' : Element) (tr : list event) :
  execution mutex_respected e tr e' ->
  mutex_in_order e ->
  (waitMutex e' = Some Worker <-> holds_mutex (worker (thread e')) = true) /\
  waitMutex e' <> Some Caller /\
  (worker_step e' = None ->
   waitMutex e' = None /\
   result (Wake 0 e') = Returns tt /\
   canSleep (after (Wake 0 e')) = false /\
   waitMutex (after (Wake 0 e')) = None).
Proof.
  intros Hex I. destruct (mutex_in_order_execution Hex I) as [C M].
  split; [|split].
  - rewrite M. destruct (holds_mutex (worker (thread e')));
      split; congruence.
  - rewrite M. destruct (holds_mutex (worker (thread e'))); discriminate.
  - intros Hrest.
    assert (Hfree : waitMutex e' = None).
    { rewrite M. revert Hrest M. unfold worker_step. break_element e'.
      destruct l; simpl; try reflexivity; run_step; intros Hrest M; subst;
        try match type of Hrest with
            | context [if ?c then _ else _] => destruct c
            end; discriminate. }
    split; [exact Hfree|]. rewrite (Wake_granted 0 e' Hfree).
    cbn [Z.eqb result after]. auto.
Qed.

Lemma Wake_is_granted_at_rest_witness :
  let e := after (Execute new_Element) in
  let w := run_worker worker_bound e in
  mutex_in_order e /\
  worker (thread (fst w)) = L179 /\
  waitMutex (fst w) = None /\
  result (Wake 0 (fst w)) = Returns tt.
Proof.
  cbv zeta.
  set (e := after (Execute new_Element)).
  assert (I : mutex_in_order e) by (split; reflexivity).
  assert (Hex : execution mutex_respected e
                  (snd (run_worker worker_bound e))
                  (fst (run_worker worker_bound e)))
    by apply run_worker_execution.
  destruct (Wake_is_granted_at_rest Hex I) as (_ & _ & H).
  destruct (H (worker_comes_to_rest e)) as (H1 & H2 & _).
  split; [exact I|]. split; [reflexivity|]. split; [exact H1|exact H2].
Defined.
